(** * f18: canonicalization of label DO loops, one-line IF check, EXIT out of
    DO CONCURRENT, and the token buffer

    A shallow embedding of
    - [lib/semantics/canonicalize-do.cc] (module [CanonicalizeDo]),
    - the [IfStmtChecker::Leave] check of C1143 (module [CheckIfStmt]),
    - the C1167 test file for EXIT inside DO CONCURRENT (module [DoConcurrent]),
    - nine inline members of [lib/parser/token-sequence.h] (module [Tokens]).

    Blocks are [std::list]s of parse-tree nodes; they are lists here and a
    [Block::iterator] is the position of its node in the list. *)

From Stdlib Require Import Ascii.
From stdpp Require Import strings numbers list.

Set Default Proof Using "Type".
Open Scope N_scope.
Open Scope nat_scope.

(** ** Outcomes of code that may abort *)

(** [common::die] and a failed [CHECK] end the process.  [Die] holds what the
    two conversions of the message of [Post] print: [%zd] for the number of
    loops and [%d] for the label.  [Undefined] stands for what C++ leaves
    undefined in the pass itself (a null [get_if] result that is
    dereferenced, an empty label that is read, an iterator outside its
    list); [Post] never gets there, see [CanonicalizeDoFacts.Post_defined]. *)
Inductive outcome (A : Type) : Type :=
| Ok (a : A)
| Die (stacked : nat) (topmost : Z)
| CheckFailed (condition : string)
| Undefined.
Arguments Ok {A} a.
Arguments Die {A} stacked topmost.
Arguments CheckFailed {A} condition.
Arguments Undefined {A}.

Global Instance outcome_bind : MBind outcome := fun A B k m =>
  match m with
  | Ok a => k a
  | Die n l => Die n l
  | CheckFailed c => CheckFailed c
  | Undefined => Undefined
  end.

(** Modelled from the spec: the [CHECK] macro of [common/idioms.h], a header
    that is not among the sources.  An internal consistency failure is fatal
    (spec, sections 5 and 7): [CHECK(x)] evaluates [x] and, when it is false,
    dies with the text of the condition. *)
Definition CHECK (x : bool) (text : string) : outcome unit :=
  if x then Ok tt else CheckFailed text.

(** ** The parse tree *)

(** Modelled from the spec: the node types of [parser/parse-tree.h], which
    is not among the sources, as far as the passes read them (spec, section
    3: blocks, executable constructs, labels), with the members the code
    names. *)
Module ParseTree.

(** [using Label = std::uint64_t]; zero is no label. *)
Definition Label := N.

(** A [CharBlock] is a range of the cooked character stream. *)
Record CharBlock := mkCharBlock { cb_begin : nat; cb_size : nat }.

(** The default constructed (empty) [CharBlock]. *)
Definition noSource : CharBlock := mkCharBlock 0 0.

(** Names and expressions are leaves for these passes; they are kept as
    their source text. *)
Definition Name := string.
Definition Expr := string.

(** [LoopControl]: a variant of bounds, a WHILE condition and CONCURRENT. *)
Inductive LoopControl :=
| Bounds (name : Name) (lower upper : Expr) (step : option Expr)
| While (cond : Expr)
| Concurrent (header : string).

Record UnlabeledStatement (A : Type) := mkUnlabeled {
  source : CharBlock;
  statement : A }.
Arguments mkUnlabeled {A} source statement.
Arguments source {A} u.
Arguments statement {A} u.

(** [Statement<A>] derives from [UnlabeledStatement<A>] and adds the label. *)
Record Statement (A : Type) := mkStatement {
  base : UnlabeledStatement A;
  label : option Label }.
Arguments mkStatement {A} base label.
Arguments base {A} s.
Arguments label {A} s.

(** The constructor [Statement(std::optional<Label> &&lab, A &&s)]: the source
    range is left default constructed. *)
Definition newStatement {A : Type} (lab : option Label) (s : A) : Statement A :=
  mkStatement (mkUnlabeled noSource s) lab.

(** [ActionStmt] is a variant of some thirty statements; the passes tell
    CONTINUE, CYCLE, EXIT and the one-line IF from the rest. *)
Inductive ActionStmt :=
| ContinueStmt
| CycleStmt (v : option Name)
| ExitStmt (v : option Name)
| ActionIfStmt (i : IfStmt)
| OtherActionStmt (text : string)
with IfStmt :=
| mkIfStmt (cond : Expr) (action : UnlabeledStatement ActionStmt).

Record LabelDoStmt := mkLabelDoStmt {
  ld_name : option Name;
  ld_label : Label;
  ld_control : option LoopControl }.

Record NonLabelDoStmt := mkNonLabelDoStmt {
  nd_name : option Name;
  nd_control : option LoopControl }.

Record EndDoStmt := mkEndDoStmt { ed_name : option Name }.

(** [ExecutionPartConstruct], [ExecutableConstruct] and [DoConstruct].  The
    constructs other than DO keep their nested blocks and are otherwise
    opaque; the other execution part constructs (FORMAT, ENTRY, DATA,
    NAMELIST, error recovery) are opaque. *)
Inductive ExecutionPartConstruct :=
| Executable (e : ExecutableConstruct)
| OtherPart (text : string)
with ExecutableConstruct :=
| ActionStatement (s : Statement ActionStmt)
| LabelDoStatement (s : Statement LabelDoStmt)
| EndDoStatement (s : Statement EndDoStmt)
| Do (d : DoConstruct)
| OtherConstruct (kind : string) (blocks : list (list ExecutionPartConstruct))
with DoConstruct :=
| mkDoConstruct (doStmt : Statement NonLabelDoStmt)
    (body : list ExecutionPartConstruct) (endDo : Statement EndDoStmt).

(** [using Block = std::list<ExecutionPartConstruct>] *)
Abbreviation Block := (list ExecutionPartConstruct).

Definition doStmtOf (d : DoConstruct) : Statement NonLabelDoStmt :=
  match d with mkDoConstruct s _ _ => s end.
Definition bodyOf (d : DoConstruct) : Block :=
  match d with mkDoConstruct _ b _ => b end.
Definition endDoOf (d : DoConstruct) : Statement EndDoStmt :=
  match d with mkDoConstruct _ _ e => e end.

End ParseTree.

(** ** canonicalize-do.cc *)

Module CanonicalizeDo.
Import ParseTree.

(** When an execution part construct is a label DO statement, return its
    label, else zero. *)
Definition GetLabelDoLoopLabel (construct : ExecutionPartConstruct) : Label :=
  match construct with
  | Executable (LabelDoStatement labelDo) => ld_label (statement (base labelDo))
  | _ => 0%N
  end.

(** A bare END DO statement is replaced with a CONTINUE statement that keeps
    the label.  Returns the construct as it is afterwards and the label, or
    zero. *)
Definition ReplaceEndDoStmt (construct : ExecutableConstruct)
  : outcome (ExecutableConstruct * Label) :=
  match construct with
  | EndDoStatement endDo =>
      CHECK (bool_decide (is_Some (label endDo))) "endDo->label.has_value()" ;;
      match label endDo with
      | None => Undefined
      | Some lab =>
          CHECK (0 <? lab)%N "label > 0" ;;
          Ok (ActionStatement (newStatement (Some lab) ContinueStmt), lab)
      end
  | _ => Ok (construct, 0%N)
  end.

(** If an executable construct is an action statement with a label, or a DO
    construct whose END DO has a label, return the label, else zero. *)
Definition GetPossibleLoopEndLabel (construct : ExecutableConstruct) : Label :=
  match construct with
  | ActionStatement actionStmt =>
      match label actionStmt with
      | Some lab => lab
      | None => 0%N
      end
  | Do doConstruct =>
      match label (endDoOf doConstruct) with
      | Some lab => lab
      | None => 0%N
      end
  | _ => 0%N
  end.

(** [body.splice(body.begin(), block, ++doStmt, nextAfterLoop)]: the nodes
    from the one after [doStmt] up to, not including, [nextAfterLoop] leave
    the block and make up the body.  Returns the body and what stays. *)
Definition ExtractDoLoopBody (block : Block) (doStmt nextAfterLoop : nat)
  : Block * Block :=
  (take (nextAfterLoop - S doStmt) (drop (S doStmt) block),
   take (S doStmt) block ++ drop nextAfterLoop block).

(** A block DO construct with the construct name and loop control of the
    label DO statement, the given body, and fresh unlabeled DO and END DO
    statements. *)
Definition MakeBlockDoLoop (labelDo : ExecutionPartConstruct) (body : Block)
  : outcome DoConstruct :=
  match labelDo with
  | Executable (LabelDoStatement s) =>
      let doStmt := statement (base s) in
      Ok (mkDoConstruct
            (newStatement None
               (mkNonLabelDoStmt (ld_name doStmt) (ld_control doStmt)))
            body
            (newStatement None (mkEndDoStmt None)))
  | _ => Undefined
  end.

Definition ConvertToBlockDoConstruct (block : Block) (labelDo nextAfter : nat)
  : outcome Block :=
  match block !! labelDo with
  | Some (Executable construct) =>
      let '(body, block') := ExtractDoLoopBody block labelDo nextAfter in
      d ← MakeBlockDoLoop (Executable construct) body;
      Ok (<[labelDo := Executable (Do d)]> block')
  | _ => Undefined
  end.

(** The state of the loop of [Post]: the block, the position of the iterator
    [next], and the stack of the pending label DO statements, whose head is
    [pendingDoLoopStack.back()]. *)
Record PostState := mkPostState {
  block : Block;
  next : nat;
  pendingDoLoopStack : list nat }.

(** The inner [for] loop: rewrite the pending loops that [label] terminates,
    innermost first.  A list iterator stays on its node when other nodes are
    spliced out; as a position, [next] moves down by the number of nodes that
    have left the block. *)
Fixpoint RewritePending (label : Label) (block : Block) (next : nat)
    (pendingDoLoopStack : list nat) : outcome PostState :=
  match pendingDoLoopStack with
  | [] => Ok (mkPostState block next [])
  | doIter :: popped =>
      match block !! doIter with
      | None => Undefined
      | Some header =>
          if (GetLabelDoLoopLabel header =? label)%N then
            block' ← ConvertToBlockDoConstruct block doIter next;
            let next' := next - (length block - length block') in
            CHECK (S doIter =? next') "++doIter == next" ;;
            RewritePending label block' next' popped
          else Ok (mkPostState block next pendingDoLoopStack)
      end
  end.

(** One turn of the outer [for] loop, at [iter = next st]. *)
Definition PostBody (st : PostState) : outcome PostState :=
  let iter := next st in
  let stack := pendingDoLoopStack st in
  match block st !! iter with
  | None => Undefined
  | Some x =>
      let next := S iter in
      if (0 <? GetLabelDoLoopLabel x)%N then
        Ok (mkPostState (block st) next (iter :: stack))
      else
        match x with
        | Executable construct =>
            '(construct', endDoLabel) ← ReplaceEndDoStmt construct;
            let block1 := <[iter := Executable construct']> (block st) in
            (if (endDoLabel =? 0)%N then Ok tt
             else
               CHECK (negb (bool_decide (stack = [])))
                 "!pendingDoLoopStack.empty()" ;;
               match stack with
               | [] => Undefined
               | back :: _ =>
                   match block1 !! back with
                   | None => Undefined
                   | Some header =>
                       CHECK (endDoLabel =? GetLabelDoLoopLabel header)%N
                         "endDoLabel == GetLabelDoLoopLabel(back)"
                   end
               end) ;;
            let label := GetPossibleLoopEndLabel construct' in
            if (label =? 0)%N then Ok (mkPostState block1 next stack)
            else RewritePending label block1 next stack
        | _ => Ok (mkPostState (block st) next stack)
        end
  end.

(** The outer loop runs once per node of the block as it was on entry: no
    node at or after [next] is ever moved, so [iter] reaches [blockEnd] after
    that many turns ([PostLoop_end]). *)
Fixpoint PostLoop (turns : nat) (st : PostState) : outcome PostState :=
  match turns with
  | 0 => Ok st
  | S turns' => st' ← PostBody st; PostLoop turns' st'
  end.

(** What the conversion [%d] prints for a [Label]: the message of [Post]
    hands the 64-bit unsigned label to a conversion that reads an [int], so
    what is printed is the low 32 bits of the label as a two's complement
    number (4294967306 is printed as 10).  C++ leaves the mismatch
    undefined; this is what the call does where an [int] argument is read
    from the low half of the 64-bit one. *)
Definition printed_d (l : Label) : Z :=
  let w := (Z.of_N l mod 2 ^ 32)%Z in
  if (w <? 2 ^ 31)%Z then w else (w - 2 ^ 32)%Z.

(** Convert labeled DO loops in a block to DO/END DO block-structured loops.
    [Die n l] is the call of [common::die] with the format
    [%zd loops remain stacked at end of block; topmost label is %d]: [n] is
    the size of the stack and [l] what [%d] prints for the label that the
    topmost pending label DO statement requests. *)
Definition Post (b : Block) : outcome Block :=
  st ← PostLoop (length b) (mkPostState b 0 []);
  match pendingDoLoopStack st with
  | [] => Ok (block st)
  | back :: _ =>
      match block st !! back with
      | None => Undefined
      | Some header =>
          Die (length (pendingDoLoopStack st))
            (printed_d (GetLabelDoLoopLabel header))
      end
  end.

(** *** The walk over the tree *)

Definition mapM {A B : Type} (f : A -> outcome B) : list A -> outcome (list B) :=
  fix go (l : list A) : outcome (list B) :=
    match l with
    | [] => Ok []
    | x :: l' => y ← f x; ys ← go l'; Ok (y :: ys)
    end.

(** Modelled from the spec: the walk of [parser/parse-tree-visitor.h], which
    is not among the sources.  The spec has the blocks processed bottom-up:
    the nodes of a block are walked first, so that the nested blocks are
    canonical when [Post] is called on the block. *)
Fixpoint Walk (x : ExecutionPartConstruct) : outcome ExecutionPartConstruct :=
  match x with
  | Executable (Do (mkDoConstruct s body e)) =>
      body' ← mapM Walk body;
      body'' ← Post body';
      Ok (Executable (Do (mkDoConstruct s body'' e)))
  | Executable (OtherConstruct kind blocks) =>
      blocks' ← mapM (fun b => b' ← mapM Walk b; Post b') blocks;
      Ok (Executable (OtherConstruct kind blocks'))
  | _ => Ok x
  end.

(** [CanonicalizeDo], on the execution part of a program unit. *)
Definition CanonicalizeDo (b : Block) : outcome Block :=
  b' ← mapM Walk b; Post b'.

(** *** What a conversion produces *)

(** The block DO construct made from the label DO statement [s] around
    [body]: the value [MakeBlockDoLoop] returns. *)
Definition blockDo (s : Statement LabelDoStmt) (body : Block) : DoConstruct :=
  mkDoConstruct
    (newStatement None
       (mkNonLabelDoStmt (ld_name (statement (base s)))
          (ld_control (statement (base s)))))
    body
    (newStatement None (mkEndDoStmt None)).

(** The pending loops at positions [ds] (innermost first) are wrapped one
    after the other.  The accumulator is the position [hi] where the wrapped
    part starts and the wrapped part [tail] itself (empty, or one DO
    construct): the loop at [d] takes the nodes after [d] up to [hi] and then
    [tail] as its body. *)
Definition wrapHeader (block0 : Block) (acc : nat * Block) (d : nat)
  : nat * Block :=
  match block0 !! d with
  | Some (Executable (LabelDoStatement s)) =>
      (d, [Executable
             (Do (blockDo s (take (acc.1 - S d) (drop (S d) block0) ++ acc.2)))])
  | _ => acc
  end.

Definition wrapPending (block0 : Block) (next0 : nat) (ds : list nat)
  : nat * Block :=
  foldl (wrapHeader block0) (next0, []) ds.

(** [descending hi ds]: the positions [ds] go down strictly, all below [hi]. *)
Fixpoint descending (hi : nat) (ds : list nat) : Prop :=
  match ds with
  | [] => True
  | d :: ds' => d < hi ∧ descending d ds'
  end.

(** The label DO statement at a position, if there is one. *)
Definition labelDoAt (b : Block) (d : nat) : option (Statement LabelDoStmt) :=
  match b !! d with
  | Some (Executable (LabelDoStatement s)) => Some s
  | _ => None
  end.

(** The pending loop at [d] requests the terminal label [l]. *)
Definition requests (b : Block) (l : Label) (d : nat) : Prop :=
  ∃ s, labelDoAt b d = Some s ∧ ld_label (statement (base s)) = l.

(** The pending stack [rest] does not go on with a loop that requests [l]:
    it is empty, or its topmost loop is a node below [hi] with another
    label. *)
Definition stopsAt (b : Block) (l : Label) (hi : nat) (rest : list nat) : Prop :=
  match rest with
  | [] => True
  | d :: _ => d < hi ∧ ∃ h, b !! d = Some h ∧ GetLabelDoLoopLabel h ≠ l
  end.

(** The block while the pending loops are being closed: the part of [b0]
    before [hi], the wrapped part, and the nodes of [b0] from [next0] on. *)
Definition rewritten (b0 : Block) (next0 : nat) (acc : nat * Block) : Block :=
  take acc.1 b0 ++ acc.2 ++ drop next0 b0.

(** *** The invariant of the pending stack *)

Definition isEndDo (construct : ExecutableConstruct) : bool :=
  match construct with EndDoStatement _ => true | _ => false end.

(** The stack holds positions of label DO statements of the block, going
    down strictly from below [next]. *)
Definition pendingOk (b : Block) (nxt : nat) (stack : list nat) : Prop :=
  nxt ≤ length b ∧ descending nxt stack ∧
  Forall (fun d => is_Some (labelDoAt b d)) stack.

Definition WF (st : PostState) : Prop :=
  pendingOk (block st) (next st) (pendingDoLoopStack st).

(** [replaced c c']: [c'] is the construct [ReplaceEndDoStmt] leaves in place
    of [c]. *)
Definition replaced (c c' : ExecutableConstruct) : Prop :=
  (isEndDo c = false ∧ c' = c) ∨
  (∃ e lab, c = EndDoStatement e ∧ label e = Some lab ∧ (0 < lab)%N ∧
            c' = ActionStatement (newStatement (Some lab) ContinueStmt) ∧
            GetPossibleLoopEndLabel c' = lab).



Definition pushed (st : PostState) : PostState :=
  mkPostState (block st) (S (next st)) (next st :: pendingDoLoopStack st).

Definition passed (b : Block) (st : PostState) : PostState :=
  mkPostState b (S (next st)) (pendingDoLoopStack st).

(** *** Labels and DO constructs of a tree *)

(** The labels the statements of a tree carry, nested blocks included. *)
Fixpoint labelsOf (x : ExecutionPartConstruct) : list Label :=
  match x with
  | Executable (ActionStatement s) => option_list (label s)
  | Executable (LabelDoStatement s) => option_list (label s)
  | Executable (EndDoStatement s) => option_list (label s)
  | Executable (Do (mkDoConstruct s body e)) =>
      option_list (label s) ++ (body ≫= labelsOf) ++ option_list (label e)
  | Executable (OtherConstruct _ blocks) =>
      blocks ≫= (fun b => b ≫= labelsOf)
  | OtherPart _ => []
  end.

Definition definedLabels (b : Block) : list Label := b ≫= labelsOf.

(** The same, leaving out the label DO statements of the block itself: the
    conversion drops a label DO statement and with it the statement's own
    label. *)
Definition kept (x : ExecutionPartConstruct) : list Label :=
  match x with
  | Executable (LabelDoStatement _) => []
  | _ => labelsOf x
  end.

Definition keptLabels (b : Block) : list Label := b ≫= kept.

(** The DO constructs of a tree, nested ones included. *)
Fixpoint doNodesOf (x : ExecutionPartConstruct) : list DoConstruct :=
  match x with
  | Executable (Do (mkDoConstruct s body e)) =>
      mkDoConstruct s body e :: (body ≫= doNodesOf)
  | Executable (OtherConstruct _ blocks) =>
      blocks ≫= (fun b => b ≫= doNodesOf)
  | _ => []
  end.

Definition doNodes (b : Block) : list DoConstruct := b ≫= doNodesOf.

(** Neither the DO statement nor the END DO statement of the construct has a
    label. *)
Definition unlabeled (d : DoConstruct) : Prop :=
  label (doStmtOf d) = None ∧ label (endDoOf d) = None.

(** *** The labels requested by the loops met so far *)

(** After [k] nodes of the block [b0] on entry: the label each label DO
    statement among them requests is still requested by a pending loop, or
    it is the label of a statement of the block as it is now. *)
Definition metLabels (b0 : Block) (k : nat) (st : PostState) : Prop :=
  ∀ d s, d < k -> labelDoAt b0 d = Some s ->
    (0 < ld_label (statement (base s)))%N ->
    (∃ d', d' ∈ pendingDoLoopStack st ∧
           requests (block st) (ld_label (statement (base s))) d') ∨
    ld_label (statement (base s)) ∈ keptLabels (block st).

(** Where the wrapping ends: at the last, outermost, of the positions. *)
Definition outermost (nxt : nat) (ds : list nat) : nat :=
  foldl (fun _ d => d) nxt ds.

(** [closes x body]: the block [body] ends with the node [x], or with a DO
    construct whose body does. *)
Inductive closes (x : ExecutionPartConstruct) : Block -> Prop :=
| closes_last pre : closes x (pre ++ [x])
| closes_nested pre s body e :
    closes x body ->
    closes x (pre ++ [Executable (Do (mkDoConstruct s body e))]).

(** *** Sample blocks *)

Definition action (lab : option Label) (text : string)
  : ExecutionPartConstruct :=
  Executable (ActionStatement
    (mkStatement (mkUnlabeled (mkCharBlock 7 5) (OtherActionStmt text)) lab)).

Definition labelDo (name : option Name) (l : Label) (control : string)
  : ExecutionPartConstruct :=
  Executable (LabelDoStatement
    (mkStatement
       (mkUnlabeled (mkCharBlock 7 12)
          (mkLabelDoStmt name l (Some (While control))))
       None)).

(** A label DO statement that has a label of its own. *)
Definition labelledDo (lab l : Label) (control : string)
  : ExecutionPartConstruct :=
  Executable (LabelDoStatement
    (mkStatement
       (mkUnlabeled (mkCharBlock 7 12)
          (mkLabelDoStmt None l (Some (While control))))
       (Some lab))).

Definition bareEndDo (lab : option Label) : ExecutionPartConstruct :=
  Executable (EndDoStatement
    (mkStatement (mkUnlabeled (mkCharBlock 7 6) (mkEndDoStmt None)) lab)).

Definition continueAt (l : Label) : ExecutionPartConstruct :=
  Executable (ActionStatement (newStatement (Some l) ContinueStmt)).

Definition blockLoop (name : option Name) (control : string) (body : Block)
    (endLabel : option Label) : ExecutionPartConstruct :=
  Executable (Do (mkDoConstruct
    (newStatement None (mkNonLabelDoStmt name (Some (While control))))
    body
    (newStatement endLabel (mkEndDoStmt None)))).

(** [DO 20 / DO 10 / a / inner: DO 10 / b / 10 c / d]: two loops share the
    terminal statement [10 c]; the loop to label 20 stays open. *)
Definition sharedLabel : Block :=
  [ labelDo None 20%N "w"; labelDo None 10%N "i"; action None "a";
    labelDo (Some "inner") 10%N "j"; action None "b"; action (Some 10%N) "c";
    action None "d" ].

(** [DO 10 / a / DO 20 / b / 20 END DO / 10 END DO / d] *)
Definition ownEndDo : Block :=
  [ labelDo None 10%N "i"; action None "a"; labelDo None 20%N "j";
    action None "b"; bareEndDo (Some 20%N); bareEndDo (Some 10%N);
    action None "d" ].

(** [DO 10 / a / DO j ... 10 END DO]: the terminal is a DO construct whose
    END DO has the label. *)
Definition endsInLoop : Block :=
  [ labelDo (Some "outer") 10%N "i"; action None "a";
    blockLoop None "j" [action None "b"] (Some 10%N) ].



(** [DO 10 / DO 20 / DO k ... 10 END DO]: the DO construct has the label 10
    on its END DO, the loop on top of the stack requests 20. *)
Definition blockedByInner : Block :=
  [ labelDo None 10%N "i"; labelDo None 20%N "j";
    blockLoop None "k" [action None "b"] (Some 10%N) ].


(** [5 CONTINUE / DO j ... END DO / a]: nothing to convert. *)
Definition alreadyBlock : Block :=
  [ continueAt 5%N; blockLoop None "j" [action (Some 7%N) "b"] None;
    action None "a" ].

(** The claim C2 says of a label [l] that no DO construct of the tree
    carries it. *)
Definition noLoopCarries (b : Block) (l : Label) : Prop :=
  ∀ dn, dn ∈ doNodes b ->
    label (doStmtOf dn) ≠ Some l ∧ label (endDoOf dn) ≠ Some l.

(** *** Canonical trees *)

(** No label DO statement and no bare END DO statement in the tree. *)
Fixpoint legacyFree (x : ExecutionPartConstruct) : bool :=
  match x with
  | Executable (LabelDoStatement _) => false
  | Executable (EndDoStatement _) => false
  | Executable (Do (mkDoConstruct _ body _)) => forallb legacyFree body
  | Executable (OtherConstruct _ blocks) => forallb (forallb legacyFree) blocks
  | _ => true
  end.

Definition canonical (b : Block) : bool := forallb legacyFree b.

(** The same for the nodes of one block, not looking into them. *)
Definition plain (x : ExecutionPartConstruct) : bool :=
  match x with
  | Executable (LabelDoStatement _) => false
  | Executable (EndDoStatement _) => false
  | _ => true
  end.

(** Induction on the tree, with the nodes of the nested blocks. *)
Section TreeInduction.
Variable P : ExecutionPartConstruct -> Prop.
Hypothesis Hother : ∀ text, P (OtherPart text).
Hypothesis Haction : ∀ s, P (Executable (ActionStatement s)).
Hypothesis HlabelDo : ∀ s, P (Executable (LabelDoStatement s)).
Hypothesis HendDo : ∀ s, P (Executable (EndDoStatement s)).
Hypothesis Hdo : ∀ s body e,
  Forall P body -> P (Executable (Do (mkDoConstruct s body e))).
Hypothesis Hconstruct : ∀ kind blocks,
  Forall (Forall P) blocks -> P (Executable (OtherConstruct kind blocks)).
Fixpoint tree_ind (x : ExecutionPartConstruct) : P x :=
  let block_ind :=
    fix go (l : Block) : Forall P l :=
      match l with
      | [] => @List.Forall_nil _ P
      | y :: l' => @List.Forall_cons _ P y l' (tree_ind y) (go l')
      end in
  match x with
  | OtherPart text => Hother text
  | Executable (ActionStatement s) => Haction s
  | Executable (LabelDoStatement s) => HlabelDo s
  | Executable (EndDoStatement s) => HendDo s
  | Executable (Do (mkDoConstruct s body e)) => Hdo s body e (block_ind body)
  | Executable (OtherConstruct kind blocks) =>
      Hconstruct kind blocks
        ((fix gos (bs : list Block) : Forall (Forall P) bs :=
            match bs with
            | [] => @List.Forall_nil _ (Forall P)
            | b :: bs' =>
                @List.Forall_cons _ (Forall P) b bs' (block_ind b) (gos bs')
            end) blocks)
  end.
End TreeInduction.

(** *** What the pass keeps *)

(** A node that [Post] passes without pushing it and without a [CHECK]:
    neither a label DO statement with a label above zero nor a bare END DO
    statement. *)
Definition inert (x : ExecutionPartConstruct) : bool :=
  negb (0 <? GetLabelDoLoopLabel x)%N &&
  match x with
  | Executable (EndDoStatement _) => false
  | _ => true
  end.

(** Neither [common::die] nor anything undefined. *)
Definition clean {A : Type} (m : outcome A) : Prop :=
  match m with
  | Ok _ | CheckFailed _ => True
  | _ => False
  end.

Definition notEndDo (x : ExecutionPartConstruct) : bool :=
  match x with
  | Executable (EndDoStatement _) => false
  | _ => true
  end.

(** The nodes below [next] are inert or on the stack. *)
Definition visitedOk (st : PostState) : Prop :=
  ∀ i x, i < next st -> block st !! i = Some x ->
    inert x = true ∨ i ∈ pendingDoLoopStack st.

(** Nothing is left to convert in a node, nor at any depth inside it. *)
Fixpoint settled (x : ExecutionPartConstruct) : bool :=
  inert x &&
  match x with
  | Executable (Do (mkDoConstruct _ body _)) => forallb settled body
  | Executable (OtherConstruct _ blocks) => forallb (forallb settled) blocks
  | _ => true
  end.

(** Nothing is left to convert in the blocks nested in a node: what [Post]
    takes for granted of the nodes of its block (all nested execution parts
    have already been converted). *)
Definition nestedSettled (x : ExecutionPartConstruct) : bool :=
  match x with
  | Executable (Do (mkDoConstruct _ body _)) => forallb settled body
  | Executable (OtherConstruct _ blocks) => forallb (forallb settled) blocks
  | _ => true
  end.

(** The outline of a block, in the order of the text: the loops, each with
    its construct name and loop control and nothing else, be they label DO
    statements or DO constructs (whose bodies follow), and the other nodes
    as they are, a bare END DO statement with a label being read as the
    CONTINUE statement that takes its place.  The outline does not have the
    label, the requested label and the source range of a label DO statement,
    the labels and source ranges of the DO and END DO statements of a DO
    construct, and the construct name and source range of a bare END DO
    statement. *)
Inductive OutlineItem :=
| LoopItem (name : option Name) (control : option LoopControl)
| LeafItem (x : ExecutionPartConstruct).

Fixpoint outlineOf (x : ExecutionPartConstruct) : list OutlineItem :=
  match x with
  | Executable (LabelDoStatement s) =>
      [LoopItem (ld_name (statement (base s))) (ld_control (statement (base s)))]
  | Executable (Do (mkDoConstruct s body e)) =>
      LoopItem (nd_name (statement (base s))) (nd_control (statement (base s)))
      :: (body ≫= outlineOf)
  | Executable (EndDoStatement e) =>
      match label e with
      | Some lab =>
          [LeafItem (Executable
             (ActionStatement (newStatement (Some lab) ContinueStmt)))]
      | None => [LeafItem x]
      end
  | _ => [LeafItem x]
  end.

Definition outline (b : Block) : list OutlineItem := b ≫= outlineOf.

End CanonicalizeDo.

(** ** check-if-stmt.cc *)

Module CheckIfStmt.
Import ParseTree.

(** Modelled from the spec: the messages of [parser/message.h], which is
    not among the sources; a diagnostic is a source location with a message
    (section 6), here an error: the text has the suffix [_err_en_US]. *)
Record Message := mkMessage { at_ : CharBlock; text : string }.

(** Modelled from the spec: [context_.Say(at, text)] of
    [semantics/semantics.h], which is not among the sources; the diagnostics
    are accumulated in an append-only sequence (section 5). *)
Definition Say (at' : CharBlock) (msg : string) (context_ : list Message)
  : list Message :=
  context_ ++ [mkMessage at' msg].

(** C1143: check that the action statement is not an IF statement. *)
Definition Leave (ifStmt : IfStmt) (context_ : list Message) : list Message :=
  match ifStmt with
  | mkIfStmt _ body =>
      match statement body with
      | ActionIfStmt _ =>
          Say (source body) "IF statement is not allowed in IF statement"
            context_
      | _ => context_
      end
  end.

(** The messages for one action statement of the tree: [Leave] is called
    when the statement is an IF statement; [Leave] is handed the [IfStmt],
    not the statement around it that has the source range. *)
Definition visit (s : UnlabeledStatement ActionStmt) : list Message :=
  match statement s with
  | ActionIfStmt ifStmt => Leave ifStmt []
  | _ => []
  end.

(** [IF (A > 0.0) IF (B < 0.0) A = LOG (A)], from column 7 on. *)
Definition innerIf : UnlabeledStatement ActionStmt :=
  mkUnlabeled (mkCharBlock 20 24)
    (ActionIfStmt
       (mkIfStmt "B < 0.0"
          (mkUnlabeled (mkCharBlock 33 11) (OtherActionStmt "A = LOG (A)")))).

Definition outerIf : UnlabeledStatement ActionStmt :=
  mkUnlabeled (mkCharBlock 7 37) (ActionIfStmt (mkIfStmt "A > 0.0" innerIf)).

End CheckIfStmt.

(** ** EXIT out of DO CONCURRENT (C1167) *)

Module DoConcurrent.
Import ParseTree.

(** The frames of the construct stack: the kind of the construct and its
    name. *)
Inductive ConstructKind := OrdinaryLoop | ConcurrentLoop | Conditional | OtherKind.

Record Frame := mkFrame { kind : ConstructKind; name : option Name }.

Definition isLoop (f : Frame) : bool :=
  match kind f with
  | OrdinaryLoop | ConcurrentLoop => true
  | _ => false
  end.

(** True exactly for the frames of concurrent loops. *)
Definition escapeRestricted (f : Frame) : bool :=
  match kind f with
  | ConcurrentLoop => true
  | _ => false
  end.

Inductive Diagnostic := IllegalEscape | UnknownConstructName | OutsideLoop.

(** The frame an EXIT statement names, or the nearest loop for one without a
    name. *)
Definition isTarget (target : option Name) (f : Frame) : bool :=
  match target with
  | Some n => bool_decide (name f = Some n)
  | None => isLoop f
  end.

(** Modelled from the spec: [resolve] of the construct stack model, whose
    code is not among the sources.  The stack has the innermost frame
    first; the result is the depth of the nearest frame that is the
    target. *)
Fixpoint resolve (target : option Name) (stack : list Frame) : option nat :=
  match stack with
  | [] => None
  | f :: outer =>
      if isTarget target f then Some 0 else S <$> resolve target outer
  end.

(** Modelled from the spec: the walk from the innermost frame out to the
    target that the legality checker does for an EXIT statement; the checker
    is not among the sources.  The test file of the repository settles what
    the spec leaves open: the target frame counts when it is a concurrent
    loop (do_concurrent_test1, do_concurrent_test2), and every concurrent
    loop that is left gets a diagnostic of its own (do_concurrent_test4).
    [None]: no frame is the target. *)
Fixpoint leaveFrames (target : option Name) (stack : list Frame)
  : option (list Diagnostic) :=
  match stack with
  | [] => None
  | f :: outer =>
      let here := if escapeRestricted f then [IllegalEscape] else [] in
      if isTarget target f then Some here
      else (app here) <$> leaveFrames target outer
  end.

(** Modelled from the spec: the diagnostics for one EXIT statement. *)
Definition CheckExit (target : option Name) (stack : list Frame)
  : list Diagnostic :=
  match leaveFrames target stack with
  | Some diagnostics => diagnostics
  | None =>
      match target with
      | Some _ => [UnknownConstructName]
      | None => [OutsideLoop]
      end
  end.

(** The constructs and EXIT statements of a test subroutine, with the line
    of each EXIT statement. *)
#[local] Unset Elimination Schemes.
Inductive Node :=
| ExitAt (line : nat) (target : option Name)
| Construct (f : Frame) (body : list Node).
#[local] Set Elimination Schemes.

Fixpoint checkNode (stack : list Frame) (n : Node) : list (nat * Diagnostic) :=
  match n with
  | ExitAt line target => (fun d => (line, d)) <$> CheckExit target stack
  | Construct f body => body ≫= checkNode (f :: stack)
  end.

(** The four subroutines of the test file and, from its [!ERROR:] lines,
    the diagnostics it expects: each [!ERROR:] line stands for one
    diagnostic on the next statement. *)
Definition do_concurrent_test1 : Node :=
  Construct (mkFrame ConcurrentLoop (Some "mydoc"))
    [ Construct (mkFrame OrdinaryLoop (Some "mydo"))
        [ ExitAt 25 (Some "mydoc"); ExitAt 26 (Some "mydo") ] ].
Definition expected1 : list (nat * Diagnostic) := [ (25, IllegalEscape) ].

Definition do_concurrent_test2 : Node :=
  Construct (mkFrame ConcurrentLoop (Some "mydoc")) [ ExitAt 36 None ].
Definition expected2 : list (nat * Diagnostic) := [ (36, IllegalEscape) ].

Definition do_concurrent_test3 : Node :=
  Construct (mkFrame Conditional (Some "mytest3"))
    [ Construct (mkFrame ConcurrentLoop (Some "mydoc"))
        [ Construct (mkFrame OrdinaryLoop None)
            [ ExitAt 47 (Some "mytest3") ] ] ].
Definition expected3 : list (nat * Diagnostic) := [ (47, IllegalEscape) ].

Definition do_concurrent_test4 : Node :=
  Construct (mkFrame Conditional (Some "mytest4"))
    [ Construct (mkFrame ConcurrentLoop (Some "mydoc"))
        [ Construct (mkFrame ConcurrentLoop None)
            [ ExitAt 60 None; ExitAt 63 (Some "mytest4") ] ] ].
Definition expected4 : list (nat * Diagnostic) :=
  [ (60, IllegalEscape); (63, IllegalEscape); (63, IllegalEscape) ].

(** The number of concurrent loops among the frames. *)
Definition concurrentLoops (frames : list Frame) : nat :=
  length (filter (fun f => escapeRestricted f = true) frames).

End DoConcurrent.

(** ** token-sequence.h *)

Module Tokens.

(** A provenance is an offset into the source of everything read. *)
Definition Provenance := nat.

Record ProvenanceRange := mkRange { range_start : Provenance; range_size : nat }.

(** Modelled from the spec: [OffsetToProvenanceMappings] of
    [parser/provenance.h], which is not among the sources, as the ranges put
    into it, in their order: the location range of each character. *)
Definition OffsetToProvenanceMappings := list ProvenanceRange.

Definition PutRange (r : ProvenanceRange) (m : OffsetToProvenanceMappings)
  : OffsetToProvenanceMappings :=
  m ++ [r].

(** The data members of [TokenSequence]. *)
Record TokenSequence := mkTokenSequence {
  start_ : list nat;
  nextStart_ : nat;
  char_ : list ascii;
  provenances_ : OffsetToProvenanceMappings }.

(** [TokenSequence() {}] *)
Definition emptySequence : TokenSequence := mkTokenSequence [] 0 [] [].

Definition empty (ts : TokenSequence) : bool := bool_decide (start_ ts = []).
Definition SizeInTokens (ts : TokenSequence) : nat := length (start_ ts).
Definition SizeInChars (ts : TokenSequence) : nat := length (char_ ts).

(** [TokenBytes]: from the start of the token to the start of the next
    one, or to the end of the characters for the last token.  The unchecked
    [start_[i]] reads 0 here where C++ leaves the read undefined. *)
Definition TokenBytes (ts : TokenSequence) (token : nat) : nat :=
  (if decide (length (start_ ts) ≤ token + 1) then length (char_ ts)
   else default 0 (start_ ts !! (token + 1)))
  - default 0 (start_ ts !! token).

(** [TokenAt]: the characters of a token; [start_.at(token)] throws when
    there is no such token ([None]). *)
Definition TokenAt (ts : TokenSequence) (token : nat) : option (list ascii) :=
  s ← start_ ts !! token;
  Some (take (TokenBytes ts token) (drop s (char_ ts))).

(** [CharAt]: [char_.at(j)]. *)
Definition CharAt (ts : TokenSequence) (j : nat) : option ascii :=
  char_ ts !! j.

Definition CurrentOpenToken (ts : TokenSequence) : list ascii :=
  drop (nextStart_ ts) (char_ ts).

Definition PutNextTokenChar (ch : ascii) (provenance : Provenance)
    (ts : TokenSequence) : TokenSequence :=
  mkTokenSequence (start_ ts) (nextStart_ ts) (char_ ts ++ [ch])
    (PutRange (mkRange provenance 1) (provenances_ ts)).

Definition CloseToken (ts : TokenSequence) : TokenSequence :=
  mkTokenSequence (start_ ts ++ [nextStart_ ts]) (length (char_ ts))
    (char_ ts) (provenances_ ts).

(** [ReopenLastToken]: [start_.back()] of an empty vector is undefined
    ([None]). *)
Definition ReopenLastToken (ts : TokenSequence) : option TokenSequence :=
  back ← last (start_ ts);
  Some (mkTokenSequence (removelast (start_ ts)) back (char_ ts)
          (provenances_ ts)).

(** Calls on a buffer, of nine of the members that the header defines:
    [empty], [SizeInTokens], [SizeInChars], [TokenAt], [CharAt],
    [CurrentOpenToken], [PutNextTokenChar], [CloseToken] and
    [ReopenLastToken].  The other members with a body in the header are not
    among them: the constructors and the copy assignment, which call [Put]
    and [clear], [ToCharBlock], [ToString] and [GetMutableCharData]. *)
Inductive Member :=
| call_empty
| call_SizeInTokens
| call_SizeInChars
| call_TokenAt (token : nat)
| call_CharAt (j : nat)
| call_CurrentOpenToken
| call_PutNextTokenChar (ch : ascii) (provenance : Provenance)
| call_CloseToken
| call_ReopenLastToken.

(** The [const] members. *)
Definition isLookup (m : Member) : bool :=
  match m with
  | call_PutNextTokenChar _ _ | call_CloseToken | call_ReopenLastToken => false
  | _ => true
  end.

(** The buffer after a call that returns. *)
Definition after (m : Member) (ts : TokenSequence) : option TokenSequence :=
  match m with
  | call_empty | call_SizeInTokens | call_SizeInChars
  | call_CurrentOpenToken => Some ts
  | call_TokenAt token => _ ← TokenAt ts token; Some ts
  | call_CharAt j => _ ← CharAt ts j; Some ts
  | call_PutNextTokenChar ch provenance =>
      Some (PutNextTokenChar ch provenance ts)
  | call_CloseToken => Some (CloseToken ts)
  | call_ReopenLastToken => ReopenLastToken ts
  end.

(** The claim C10 says of a call: what was stored is still there. *)
Definition onlyGrows (ts ts' : TokenSequence) : Prop :=
  char_ ts `prefix_of` char_ ts' ∧ start_ ts `prefix_of` start_ ts'.

(** One character, closed as a token. *)
Definition oneToken : TokenSequence :=
  CloseToken (PutNextTokenChar "a"%char 0 emptySequence).

(** Calls in sequence, each on the buffer the one before left; a call that
    throws or is undefined ends the run ([None]). *)
Fixpoint calls (ms : list Member) (ts : TokenSequence)
  : option TokenSequence :=
  match ms with
  | [] => Some ts
  | m :: ms => ts' ← after m ts; calls ms ts'
  end.

(** Offsets that do not go down, none below [from]. *)
Fixpoint ascending (from : nat) (offsets : list nat) : Prop :=
  match offsets with
  | [] => True
  | s :: offsets => from ≤ s ∧ ascending s offsets
  end.

Global Instance ascending_dec offsets :
  ∀ from, Decision (ascending from offsets).
Proof. induction offsets; simpl; apply _. Defined.

(** The token starts followed by the start of the open token begin at the
    first character, do not go down and stay within the characters. *)
Definition consistent (ts : TokenSequence) : Prop :=
  head (start_ ts ++ [nextStart_ ts]) = Some 0 ∧
  ascending 0 (start_ ts ++ [nextStart_ ts]) ∧
  nextStart_ ts ≤ length (char_ ts).

Global Instance consistent_dec ts : Decision (consistent ts).
Proof. unfold consistent. apply _. Defined.

(** The characters from each offset up to the next one, up to [e] from the
    last one. *)
Fixpoint pieces (cs : list ascii) (offsets : list nat) (e : nat)
  : list (list ascii) :=
  match offsets with
  | [] => []
  | s :: rest => take (default e (head rest) - s) (drop s cs) :: pieces cs rest e
  end.

(** One token closed and a character of the next one. *)
Definition openToken : TokenSequence :=
  PutNextTokenChar "b"%char 1 oneToken.

End Tokens.

(** * Properties *)

Module CanonicalizeDoFacts.
Import ParseTree CanonicalizeDo.

(** *** Single conversions and the inner loop *)

Lemma labelDoAt_Some b d s :
  labelDoAt b d = Some s -> b !! d = Some (Executable (LabelDoStatement s)).
Proof.
  unfold labelDoAt. destruct (b !! d) as [[[| | | |]|]|]; congruence.
Qed.

Lemma labelDoAt_eq b b' d : b' !! d = b !! d -> labelDoAt b' d = labelDoAt b d.
Proof. unfold labelDoAt. by intros ->. Qed.

Lemma MakeBlockDoLoop_labelDo s body :
  MakeBlockDoLoop (Executable (LabelDoStatement s)) body = Ok (blockDo s body).
Proof. reflexivity. Qed.

(** One conversion: the header at [d] becomes a DO construct around the
    nodes after it up to [next]; the nodes from [next] on follow it. *)
Lemma ConvertToBlockDoConstruct_labelDo b d nxt s :
  labelDoAt b d = Some s ->
  d < nxt ->
  ConvertToBlockDoConstruct b d nxt =
    Ok (take d b ++
        [Executable (Do (blockDo s (take (nxt - S d) (drop (S d) b))))] ++
        drop nxt b).
Proof.
  intros Hs Hd. apply labelDoAt_Some in Hs.
  assert (Hlen : d < length b) by (eapply lookup_lt_Some; eauto).
  unfold ConvertToBlockDoConstruct, ExtractDoLoopBody. rewrite Hs. simpl.
  f_equal.
  rewrite (take_S_r b d _ Hs), <- app_assoc. simpl.
  rewrite insert_app_r_alt by (rewrite length_take; lia).
  rewrite length_take, Nat.min_l, Nat.sub_diag by lia.
  reflexivity.
Qed.

Lemma bind_Ok {A B : Type} (a : A) (k : A -> outcome B) : Ok a ≫= k = k a.
Proof. reflexivity. Qed.

(** Where [next] is after a conversion: right after the new DO construct. *)
Lemma next_after_conversion (b : Block) d nxt y :
  d < nxt -> nxt ≤ length b ->
  nxt - (length b - length (take d b ++ [y] ++ drop nxt b)) = S d.
Proof.
  intros Hd Hn. rewrite !length_app, length_take, length_drop. simpl. lia.
Qed.

Lemma GetLabelDoLoopLabel_labelDoAt b d s :
  labelDoAt b d = Some s ->
  ∃ h, b !! d = Some h ∧
       GetLabelDoLoopLabel h = ld_label (statement (base s)).
Proof. intros H%labelDoAt_Some. eauto. Qed.

Lemma rewritten_lookup_lt b0 next0 hi tail d :
  d < hi -> hi ≤ length b0 -> rewritten b0 next0 (hi, tail) !! d = b0 !! d.
Proof.
  intros Hd Hhi. unfold rewritten. simpl.
  rewrite lookup_app_l by (rewrite length_take; lia).
  by rewrite lookup_take_lt.
Qed.

Lemma rewritten_take b0 next0 hi tail d :
  d ≤ hi -> hi ≤ length b0 ->
  take d (rewritten b0 next0 (hi, tail)) = take d b0.
Proof.
  intros Hd Hhi. unfold rewritten. simpl.
  rewrite take_app_le by (rewrite length_take; lia).
  rewrite take_take. f_equal. lia.
Qed.

Lemma rewritten_drop_next b0 next0 hi tail :
  hi ≤ length b0 ->
  drop (hi + length tail) (rewritten b0 next0 (hi, tail)) = drop next0 b0.
Proof.
  intros Hhi. unfold rewritten. simpl.
  rewrite app_assoc, drop_app_length'; [done|].
  rewrite length_app, length_take. lia.
Qed.

Lemma rewritten_body b0 next0 hi tail d :
  d < hi -> hi ≤ length b0 ->
  take (hi + length tail - S d) (drop (S d) (rewritten b0 next0 (hi, tail))) =
  take (hi - S d) (drop (S d) b0) ++ tail.
Proof.
  intros Hd Hhi. unfold rewritten. simpl.
  rewrite drop_app_le by (rewrite length_take; lia).
  rewrite app_assoc, take_app_length'.
  - f_equal. rewrite skipn_firstn_comm. done.
  - rewrite length_app, length_drop, length_take. lia.
Qed.

(** The closed form of the inner loop, from any point of the rewriting. *)
Lemma RewritePending_fold l b0 next0 ds : ∀ hi tail rest,
  hi ≤ next0 -> next0 ≤ length b0 ->
  descending hi ds ->
  Forall (requests b0 l) ds ->
  stopsAt b0 l (foldl (wrapHeader b0) (hi, tail) ds).1 rest ->
  RewritePending l (rewritten b0 next0 (hi, tail)) (hi + length tail)
    (ds ++ rest) =
  let acc := foldl (wrapHeader b0) (hi, tail) ds in
  Ok (mkPostState (rewritten b0 next0 acc) (acc.1 + length acc.2) rest).
Proof.
  induction ds as [|d ds IH]; intros hi tail rest Hhi Hnext Hdesc Hreq Hstop.
  - simpl in *. destruct rest as [|d rest]; [done|].
    destruct Hstop as (Hd & h & Hh & Hne). cbn [RewritePending].
    rewrite rewritten_lookup_lt, Hh by lia.
    apply N.eqb_neq in Hne. by rewrite Hne.
  - destruct Hdesc as [Hd Hdesc].
    apply Forall_cons_1 in Hreq as [(s & Hs & Hl) Hreq].
    pose proof (labelDoAt_Some _ _ _ Hs) as Hb0.
    cbn [app RewritePending].
    rewrite rewritten_lookup_lt, Hb0 by lia.
    simpl GetLabelDoLoopLabel. rewrite Hl, N.eqb_refl.
    rewrite (ConvertToBlockDoConstruct_labelDo _ _ _ s); [|
      by rewrite (labelDoAt_eq b0) by (by rewrite rewritten_lookup_lt by lia)
      | lia].
    rewrite bind_Ok, next_after_conversion;
      [|lia|unfold rewritten; rewrite !length_app, length_take; simpl; lia].
    rewrite rewritten_take, rewritten_drop_next, rewritten_body by lia.
    rewrite Nat.eqb_refl. simpl mbind.
    assert (Hw : wrapHeader b0 (hi, tail) d =
      (d, [Executable
             (Do (blockDo s (take (hi - S d) (drop (S d) b0) ++ tail)))]))
      by (unfold wrapHeader; by rewrite Hb0).
    cbn [foldl] in *. rewrite Hw in *.
    specialize (IH d
      [Executable (Do (blockDo s (take (hi - S d) (drop (S d) b0) ++ tail)))]
      rest).
    unfold rewritten in IH at 1. simpl in IH.
    replace (d + 1) with (S d) in IH by lia.
    apply IH; [lia | lia | done | done | done].
Qed.

(** *** The turns of the outer loop, case by case *)

Lemma ReplaceEndDoStmt_other construct :
  isEndDo construct = false -> ReplaceEndDoStmt construct = Ok (construct, 0%N).
Proof. by destruct construct. Qed.

Lemma ReplaceEndDoStmt_endDo e lab :
  label e = Some lab -> (0 < lab)%N ->
  ReplaceEndDoStmt (EndDoStatement e) =
    Ok (ActionStatement (newStatement (Some lab) ContinueStmt), lab).
Proof.
  intros He Hlab. unfold ReplaceEndDoStmt. rewrite He. simpl.
  apply N.ltb_lt in Hlab. by rewrite Hlab.
Qed.

(** At a label DO statement the position is pushed. *)
Lemma PostBody_push st x :
  block st !! next st = Some x ->
  (0 < GetLabelDoLoopLabel x)%N ->
  PostBody st =
    Ok (mkPostState (block st) (S (next st))
          (next st :: pendingDoLoopStack st)).
Proof.
  intros Hx Hl. unfold PostBody. rewrite Hx.
  apply N.ltb_lt in Hl. by rewrite Hl.
Qed.

(** An execution part construct that is no executable construct is passed. *)
Lemma PostBody_other_part st text :
  block st !! next st = Some (OtherPart text) ->
  PostBody st =
    Ok (mkPostState (block st) (S (next st)) (pendingDoLoopStack st)).
Proof. intros Hx. unfold PostBody. by rewrite Hx. Qed.

(** An executable construct that is neither a pending label DO statement nor
    a bare END DO stays as it is; with a label it closes pending loops. *)
Lemma PostBody_plain st construct :
  block st !! next st = Some (Executable construct) ->
  GetLabelDoLoopLabel (Executable construct) = 0%N ->
  isEndDo construct = false ->
  PostBody st =
    if (GetPossibleLoopEndLabel construct =? 0)%N
    then Ok (mkPostState (block st) (S (next st)) (pendingDoLoopStack st))
    else RewritePending (GetPossibleLoopEndLabel construct) (block st)
           (S (next st)) (pendingDoLoopStack st).
Proof.
  intros Hx Hl He. unfold PostBody. rewrite Hx, Hl.
  change (0 <? 0)%N with false. cbv iota.
  rewrite (ReplaceEndDoStmt_other _ He). simpl.
  by rewrite (list_insert_id _ _ _ Hx).
Qed.

(** A bare END DO whose label the topmost pending loop requests becomes a
    CONTINUE statement with that label and closes pending loops. *)
Lemma PostBody_endDo st e lab back popped h :
  block st !! next st = Some (Executable (EndDoStatement e)) ->
  label e = Some lab -> (0 < lab)%N ->
  pendingDoLoopStack st = back :: popped ->
  back ≠ next st ->
  block st !! back = Some h ->
  GetLabelDoLoopLabel h = lab ->
  PostBody st =
    RewritePending lab
      (<[next st := Executable
           (ActionStatement (newStatement (Some lab) ContinueStmt))]> (block st))
      (S (next st)) (pendingDoLoopStack st).
Proof.
  intros Hx He Hlab Hst Hne Hh Hl. unfold PostBody. rewrite Hx.
  change (GetLabelDoLoopLabel (Executable (EndDoStatement e))) with 0%N.
  change (0 <? 0)%N with false. cbv iota.
  rewrite (ReplaceEndDoStmt_endDo _ _ He Hlab). simpl.
  assert ((lab =? 0)%N = false) as -> by (apply N.eqb_neq; lia).
  rewrite Hst. simpl.
  rewrite list_lookup_insert_ne by done. rewrite Hh. simpl.
  by rewrite Hl, N.eqb_refl.
Qed.

(** *** The pending stack stays well formed *)

Lemma descending_weaken hi hi' ds :
  hi ≤ hi' -> descending hi ds -> descending hi' ds.
Proof. destruct ds; simpl; [done|]. intros ? [? ?]. split; [lia|done]. Qed.

Lemma descending_lt hi ds d : descending hi ds -> d ∈ ds -> d < hi.
Proof.
  revert hi. induction ds as [|d' ds IH]; intros hi Hd Hin.
  - by apply elem_of_nil in Hin.
  - destruct Hd as [Hd' Hd]. apply elem_of_cons in Hin as [->|Hin]; [done|].
    specialize (IH _ Hd Hin). lia.
Qed.

(** The block around a pending header at [d], when [next] is at [nxt]. *)
Lemma block_split (b : Block) d nxt x :
  b !! d = Some x -> d < nxt -> nxt ≤ length b ->
  b = take d b ++ x :: take (nxt - S d) (drop (S d) b) ++ drop nxt b.
Proof.
  intros Hx Hd Hn.
  rewrite <- (take_drop_middle b d x Hx) at 1. do 2 f_equal.
  rewrite <- (take_drop (nxt - S d) (drop (S d) b)) at 1. f_equal.
  rewrite drop_drop. f_equal. lia.
Qed.

(** What the inner loop does to a well-formed stack, for any property [Q] of
    blocks that every single conversion keeps. *)
Lemma RewritePending_keeps (l : Label) (Q : Block -> Prop) :
  (∀ b d nxt s,
     labelDoAt b d = Some s -> d < nxt -> nxt ≤ length b -> Q b ->
     Q (take d b ++
        [Executable (Do (blockDo s (take (nxt - S d) (drop (S d) b))))] ++
        drop nxt b)) ->
  ∀ stack b nxt,
    pendingOk b nxt stack -> Q b ->
    ∃ st' popped,
      RewritePending l b nxt stack = Ok st' ∧
      WF st' ∧ Q (block st') ∧
      drop (next st') (block st') = drop nxt b ∧
      stack = popped ++ pendingDoLoopStack st' ∧
      Forall (requests b l) popped ∧
      (∀ d, d ∈ pendingDoLoopStack st' -> block st' !! d = b !! d).
Proof.
  intros HQ. induction stack as [|d stack IH]; intros b nxt Hok Hb.
  - exists (mkPostState b nxt []), []. simpl. repeat split; try done.
    destruct Hok as (? & ? & ?). by repeat split.
  - destruct Hok as (Hn & [Hd Hdesc] & Hhdr).
    apply Forall_cons_1 in Hhdr as [[s Hs] Hhdr].
    pose proof (labelDoAt_Some _ _ _ Hs) as Hbd.
    cbn [RewritePending]. rewrite Hbd. simpl GetLabelDoLoopLabel.
    destruct (N.eqb_spec (ld_label (statement (base s))) l) as [Hl|Hl].
    + rewrite (ConvertToBlockDoConstruct_labelDo _ _ _ s Hs Hd).
      rewrite bind_Ok, next_after_conversion by lia.
      rewrite Nat.eqb_refl. simpl mbind.
      set (b' := take d b ++ _).
      assert (Hlow : ∀ i, i < d -> b' !! i = b !! i).
      { intros i Hi. unfold b'.
        rewrite lookup_app_l by (rewrite length_take; lia).
        by rewrite lookup_take_lt. }
      assert (Hbelow : ∀ i, i ∈ stack -> i < d)
        by (intros i; by apply descending_lt).
      destruct (IH b' (S d))
        as (st' & popped & Heq & Hwf & HQ' & Hdrop & Hst & Hreq & Hsame).
      { repeat split.
        - unfold b'. rewrite length_app, length_take. simpl. lia.
        - eapply descending_weaken; [|done]. lia.
        - apply Forall_forall. intros i Hi.
          rewrite (labelDoAt_eq b) by (apply Hlow; auto).
          eapply Forall_forall in Hhdr; eauto. }
      { apply HQ; auto. }
      exists st', (d :: popped). split_and!; [done | done | done | | | | ].
      * rewrite Hdrop. unfold b'.
        rewrite cons_middle, app_assoc, drop_app_length'; [done|].
        rewrite length_app, length_take. simpl. lia.
      * simpl. by f_equal.
      * apply Forall_cons. split; [by exists s|].
        apply Forall_forall. intros i Hi.
        eapply Forall_forall in Hreq as (si & Hsi & Hli); [|done].
        exists si. split; [|done].
        rewrite <- (labelDoAt_eq b b' i); [done|].
        apply Hlow, Hbelow. rewrite Hst. apply elem_of_app. by left.
      * intros i Hi. rewrite Hsame by done.
        apply Hlow, Hbelow. rewrite Hst. apply elem_of_app. by right.
    + exists (mkPostState b nxt (d :: stack)), []. simpl.
      split_and!; try done. repeat split; try done.
      apply Forall_cons. split; [by exists s|done].
Qed.

Lemma ReplaceEndDoStmt_Ok c c' l :
  ReplaceEndDoStmt c = Ok (c', l) -> replaced c c'.
Proof.
  destruct c as [s|s|e|d|k bs]; simpl;
    try (intros [= <- <-]; left; by split).
  destruct (label e) as [lab|] eqn:He; simpl; [|done].
  destruct (N.ltb_spec 0 lab) as [Hlab|Hlab]; simpl; [|done].
  intros [= <- <-]. right. by exists e, lab.
Qed.

(** The three ways a turn of the outer loop goes on. *)
Lemma PostBody_cases st st' x :
  PostBody st = Ok st' ->
  block st !! next st = Some x ->
  ((0 < GetLabelDoLoopLabel x)%N ∧ st' = pushed st) ∨
  ((∃ text, x = OtherPart text) ∧ st' = passed (block st) st) ∨
  (∃ c c', x = Executable c ∧ GetLabelDoLoopLabel x = 0%N ∧ replaced c c' ∧
     let b1 := <[next st := Executable c']> (block st) in
     if (GetPossibleLoopEndLabel c' =? 0)%N then st' = passed b1 st
     else RewritePending (GetPossibleLoopEndLabel c') b1 (S (next st))
            (pendingDoLoopStack st) = Ok st').
Proof.
  intros Hst Hx. unfold PostBody in Hst. rewrite Hx in Hst.
  destruct (N.ltb_spec 0 (GetLabelDoLoopLabel x)) as [Hl|Hl].
  { left. split; [done|]. by injection Hst as <-. }
  right. destruct x as [c|text].
  2:{ left. split; [by exists text|]. by injection Hst as <-. }
  right.
  destruct (ReplaceEndDoStmt c) as [[c' l]| | |] eqn:Hrep; simpl in Hst; try done.
  exists c, c'. split_and!; [done | lia | by eapply ReplaceEndDoStmt_Ok |].
  simpl. destruct (_ : outcome unit) in Hst; simpl in Hst; try done.
  destruct (GetPossibleLoopEndLabel c' =? 0)%N; [by injection Hst as <-|done].
Qed.

Lemma pendingOk_insert b nxt stack x :
  nxt < length b -> pendingOk b nxt stack ->
  pendingOk (<[nxt := x]> b) (S nxt) stack.
Proof.
  intros Hlt (Hn & Hdesc & Hhdr). split_and!.
  - rewrite length_insert. lia.
  - eapply descending_weaken; [|done]. lia.
  - apply Forall_forall. intros d Hd.
    rewrite (labelDoAt_eq b).
    + eapply Forall_forall in Hhdr; eauto.
    + apply list_lookup_insert_ne. apply (descending_lt _ _ _ Hdesc) in Hd. lia.
Qed.

(** A turn keeps the stack well formed, moves [next] to the node after
    [iter], and keeps every property of blocks that conversions and the
    replacement of a bare END DO keep. *)
Lemma PostBody_keeps (Q : Block -> Prop) st st' :
  (∀ b d nxt s,
     labelDoAt b d = Some s -> d < nxt -> nxt ≤ length b -> Q b ->
     Q (take d b ++
        [Executable (Do (blockDo s (take (nxt - S d) (drop (S d) b))))] ++
        drop nxt b)) ->
  (∀ b i c c',
     b !! i = Some (Executable c) -> replaced c c' -> Q b ->
     Q (<[i := Executable c']> b)) ->
  WF st -> next st < length (block st) -> Q (block st) ->
  PostBody st = Ok st' ->
  WF st' ∧ Q (block st') ∧
  drop (next st') (block st') = drop (S (next st)) (block st).
Proof.
  intros Hconv Hrepl Hwf Hlt HQ Hst.
  destruct (lookup_lt_is_Some_2 _ _ Hlt) as [x Hx].
  destruct (PostBody_cases _ _ _ Hst Hx)
    as [[Hl ->]|[[_ ->]|(c & c' & -> & Hl & Hr & Hc)]].
  - split_and!; [|done..]. destruct Hwf as (Hn & Hdesc & Hhdr).
    split_and!; simpl; [lia | by split; [lia|] |].
    apply Forall_cons. split; [|done].
    unfold labelDoAt. rewrite Hx.
    destruct x as [[| | | |]|]; simpl in Hl; try lia. done.
  - split_and!; [|done..]. destruct Hwf as (Hn & Hdesc & Hhdr).
    split_and!; simpl; [lia | | done].
    eapply descending_weaken; [|done]. lia.
  - pose proof (pendingOk_insert _ _ _ (Executable c') Hlt Hwf) as Hok.
    pose proof (Hrepl _ _ _ _ Hx Hr HQ) as HQ1.
    assert (Hd1 : drop (S (next st)) (<[next st := Executable c']> (block st))
                  = drop (S (next st)) (block st))
      by (apply drop_insert_lt; lia).
    simpl in Hc. destruct (GetPossibleLoopEndLabel c' =? 0)%N.
    + subst st'. by split_and!.
    + destruct (RewritePending_keeps (GetPossibleLoopEndLabel c') Q Hconv
                  _ _ _ Hok HQ1)
        as (st'' & popped & Heq & Hwf' & HQ' & Hdrop & _).
      rewrite Heq in Hc. injection Hc as <-. split_and!; [done..|].
      by rewrite Hdrop.
Qed.

Lemma PostLoop_keeps (Q : Block -> Prop) :
  (∀ b d nxt s,
     labelDoAt b d = Some s -> d < nxt -> nxt ≤ length b -> Q b ->
     Q (take d b ++
        [Executable (Do (blockDo s (take (nxt - S d) (drop (S d) b))))] ++
        drop nxt b)) ->
  (∀ b i c c',
     b !! i = Some (Executable c) -> replaced c c' -> Q b ->
     Q (<[i := Executable c']> b)) ->
  ∀ turns st st',
    WF st -> next st + turns = length (block st) -> Q (block st) ->
    PostLoop turns st = Ok st' ->
    WF st' ∧ Q (block st') ∧ next st' = length (block st').
Proof.
  intros Hconv Hrepl. induction turns as [|turns IH]; intros st st' Hwf Hn HQ Hst.
  - simpl in Hst. injection Hst as <-. split_and!; [done..|lia].
  - simpl in Hst. destruct (PostBody st) as [st1| | |] eqn:H1; try done.
    simpl in Hst.
    destruct (PostBody_keeps Q st st1 Hconv Hrepl Hwf ltac:(lia) HQ H1)
      as (Hwf1 & HQ1 & Hdrop).
    apply (IH st1 st' Hwf1); [|done..].
    apply (f_equal length) in Hdrop. rewrite !length_drop in Hdrop.
    destruct Hwf1 as (? & _). lia.
Qed.

(** The outer loop stops where the source stops it: after one turn per node
    of the block on entry, [iter] is [blockEnd]. *)
Lemma PostLoop_end b st :
  PostLoop (length b) (mkPostState b 0 []) = Ok st ->
  WF st ∧ next st = length (block st).
Proof.
  intros Hst.
  destruct (PostLoop_keeps (fun _ => True) ltac:(done) ltac:(done)
              (length b) (mkPostState b 0 []) st) as (? & _ & ?); try done.
  split_and!; simpl; [lia|done|done].
Qed.

(** *** Nothing undefined is done *)

Lemma bind_defined {A B : Type} (m : outcome A) (k : A -> outcome B) :
  m ≠ Undefined -> (∀ a, k a ≠ Undefined) -> m ≫= k ≠ Undefined.
Proof. destruct m; simpl; auto. Qed.

Lemma CHECK_defined x text : CHECK x text ≠ Undefined.
Proof. by destruct x. Qed.

Lemma CHECK_bind_defined {B : Type} x text (k : unit -> outcome B) :
  (x = true -> k tt ≠ Undefined) -> CHECK x text ≫= k ≠ Undefined.
Proof. destruct x; simpl; auto. Qed.

Lemma ReplaceEndDoStmt_defined c : ReplaceEndDoStmt c ≠ Undefined.
Proof.
  destruct c as [| |e| |]; simpl; try done.
  destruct (label e) as [lab|]; simpl; [|done].
  by destruct (0 <? lab)%N.
Qed.

(** In the loop nothing undefined is done: the iterators taken from the
    stack are label DO statements of the block. *)
Lemma PostBody_defined st :
  WF st -> next st < length (block st) -> PostBody st ≠ Undefined.
Proof.
  intros Hwf Hlt.
  destruct (lookup_lt_is_Some_2 _ _ Hlt) as [x Hx].
  assert (Hrw : ∀ l c', RewritePending l
            (<[next st := Executable c']> (block st)) (S (next st))
            (pendingDoLoopStack st) ≠ Undefined).
  { intros l c'.
    destruct (RewritePending_keeps l (fun _ => True) ltac:(done) _ _ _
                (pendingOk_insert _ _ _ (Executable c') Hlt Hwf) I)
      as (st' & ? & -> & _). done. }
  unfold PostBody. rewrite Hx.
  destruct (0 <? GetLabelDoLoopLabel x)%N; [done|].
  destruct x as [c|]; [|done].
  apply bind_defined; [apply ReplaceEndDoStmt_defined|]. intros [c' l].
  apply bind_defined.
  - destruct (l =? 0)%N; [done|].
    apply CHECK_bind_defined. intros Hne.
    destruct Hwf as (Hn & Hdesc & Hhdr).
    destruct (pendingDoLoopStack st) as [|back popped]; [done|].
    apply Forall_cons_1 in Hhdr as [[s Hs%labelDoAt_Some] _].
    destruct Hdesc as [Hback _].
    rewrite list_lookup_insert_ne by lia. rewrite Hs. apply CHECK_defined.
  - intros _. destruct (_ =? 0)%N; [done|apply Hrw].
Qed.

Lemma PostLoop_defined turns : ∀ st,
  WF st -> next st + turns = length (block st) ->
  PostLoop turns st ≠ Undefined.
Proof.
  induction turns as [|turns IH]; intros st Hwf Hn; [done|].
  simpl. destruct (PostBody st) as [st1| | |] eqn:H1; simpl; try done.
  - destruct (PostBody_keeps (fun _ => True) st st1 ltac:(done) ltac:(done)
                Hwf ltac:(lia) I H1) as (Hwf1 & _ & Hdrop).
    apply IH; [done|].
    apply (f_equal length) in Hdrop. rewrite !length_drop in Hdrop.
    destruct Hwf1 as (? & _). lia.
  - by apply PostBody_defined in H1; [|done|lia].
Qed.

Lemma WF_init b : WF (mkPostState b 0 []).
Proof. split_and!; simpl; [lia|done|done]. Qed.

(** [Post] either returns the block, dies on pending loops, or fails a
    [CHECK]. *)
Lemma Post_defined b : Post b ≠ Undefined.
Proof.
  unfold Post.
  destruct (PostLoop (length b) (mkPostState b 0 [])) as [st| | |] eqn:Hst;
    simpl; try done.
  - destruct (PostLoop_end _ _ Hst) as ((_ & _ & Hhdr) & _).
    destruct (pendingDoLoopStack st) as [|back popped]; [done|].
    apply Forall_cons_1 in Hhdr as [[s Hs%labelDoAt_Some] _].
    by rewrite Hs.
  - by apply PostLoop_defined in Hst; [|apply WF_init|].
Qed.

(** *** Labels and DO constructs under conversions *)

Lemma kept_labelsOf x l : l ∈ kept x -> l ∈ labelsOf x.
Proof.
  destruct x as [[| | | |]|]; simpl; try done. intros []%elem_of_nil.
Qed.

Lemma keptLabels_defined b l : l ∈ keptLabels b -> l ∈ definedLabels b.
Proof.
  unfold keptLabels, definedLabels. rewrite !list_elem_of_bind.
  intros (x & Hl & Hx). exists x. split; [by apply kept_labelsOf|done].
Qed.

Lemma replaced_kept c c' :
  replaced c c' -> kept (Executable c') = kept (Executable c).
Proof.
  intros [[_ ->]|(e & lab & -> & He & _ & -> & _)]; [done|].
  simpl. by rewrite He.
Qed.

Lemma replaced_doNodesOf c c' :
  replaced c c' -> doNodesOf (Executable c') = doNodesOf (Executable c).
Proof. by intros [[_ ->]|(e & lab & -> & He & _ & -> & _)]. Qed.

Lemma bind_insert_same {X : Type} (f : ExecutionPartConstruct -> list X)
    (b : Block) i x x' :
  b !! i = Some x -> f x' = f x -> <[i := x']> b ≫= f = b ≫= f.
Proof.
  intros Hx Hf.
  rewrite <- (take_drop_middle b i x Hx) at 2.
  rewrite insert_take_drop by (eapply lookup_lt_Some; eauto).
  by rewrite !bind_app, !bind_cons, Hf.
Qed.

(** A conversion in terms of what the nodes contribute to a collection
    [f]: the header is gone, the nodes of the body are below the new DO
    construct. *)
Lemma elem_of_bind_split {X : Type} (f : ExecutionPartConstruct -> list X)
    (b : Block) d nxt x z :
  b !! d = Some x -> d < nxt -> nxt ≤ length b ->
  z ∈ b ≫= f ↔
  z ∈ take d b ≫= f ∨ z ∈ f x ∨
  z ∈ take (nxt - S d) (drop (S d) b) ≫= f ∨ z ∈ drop nxt b ≫= f.
Proof.
  intros Hx Hd Hn. rewrite (block_split b d nxt x Hx Hd Hn) at 1.
  rewrite bind_app, bind_cons, bind_app, !elem_of_app. tauto.
Qed.

Lemma elem_of_bind_converted {X : Type} (f : ExecutionPartConstruct -> list X)
    (b : Block) d nxt y z :
  z ∈ (take d b ++ [y] ++ drop nxt b) ≫= f ↔
  z ∈ take d b ≫= f ∨ z ∈ f y ∨ z ∈ drop nxt b ≫= f.
Proof.
  rewrite !bind_app, bind_cons, !elem_of_app. simpl.
  rewrite elem_of_nil. tauto.
Qed.

(** Conversions keep the labels that are not label DO statements' own. *)
Lemma keptLabels_converted l b d nxt s :
  labelDoAt b d = Some s -> d < nxt -> nxt ≤ length b ->
  l ∈ keptLabels b ->
  l ∈ keptLabels
        (take d b ++
         [Executable (Do (blockDo s (take (nxt - S d) (drop (S d) b))))] ++
         drop nxt b).
Proof.
  intros Hs%labelDoAt_Some Hd Hn. unfold keptLabels.
  rewrite (elem_of_bind_split kept b d nxt _ l Hs Hd Hn).
  rewrite elem_of_bind_converted. simpl.
  rewrite elem_of_nil, app_nil_r.
  intros [?|[[]|[H|?]]]; [by left| |by right; right].
  right; left. revert H. rewrite !list_elem_of_bind.
  intros (x & Hl & Hx). exists x. split; [by apply kept_labelsOf|done].
Qed.

Lemma keptLabels_replaced l (b : Block) i c c' :
  b !! i = Some (Executable c) -> replaced c c' ->
  l ∈ keptLabels b -> l ∈ keptLabels (<[i := Executable c']> b).
Proof.
  intros Hx Hr. unfold keptLabels.
  by rewrite (bind_insert_same kept b i _ _ Hx (replaced_kept _ _ Hr)).
Qed.

(** Every DO construct after a conversion was there before or is the new
    one, which has no label. *)
Lemma doNodes_converted (P : DoConstruct -> Prop) b d nxt s :
  labelDoAt b d = Some s -> d < nxt -> nxt ≤ length b ->
  (∀ dn, dn ∈ doNodes b -> P dn ∨ unlabeled dn) ->
  ∀ dn, dn ∈ doNodes
        (take d b ++
         [Executable (Do (blockDo s (take (nxt - S d) (drop (S d) b))))] ++
         drop nxt b) -> P dn ∨ unlabeled dn.
Proof.
  intros Hs%labelDoAt_Some Hd Hn Hold dn. unfold doNodes in *.
  rewrite elem_of_bind_converted. simpl. rewrite elem_of_cons.
  intros [H|[[->|H]|H]].
  - apply Hold. rewrite (elem_of_bind_split doNodesOf b d nxt _ dn Hs Hd Hn). auto.
  - by right.
  - apply Hold. rewrite (elem_of_bind_split doNodesOf b d nxt _ dn Hs Hd Hn). auto.
  - apply Hold. rewrite (elem_of_bind_split doNodesOf b d nxt _ dn Hs Hd Hn). auto.
Qed.

Lemma doNodes_replaced (P : DoConstruct -> Prop) (b : Block) i c c' :
  b !! i = Some (Executable c) -> replaced c c' ->
  (∀ dn, dn ∈ doNodes b -> P dn ∨ unlabeled dn) ->
  ∀ dn, dn ∈ doNodes (<[i := Executable c']> b) -> P dn ∨ unlabeled dn.
Proof.
  intros Hx Hr Hold dn. unfold doNodes in *.
  rewrite (bind_insert_same doNodesOf b i _ _ Hx (replaced_doNodesOf _ _ Hr)).
  apply Hold.
Qed.

Lemma requests_eq (b b' : Block) l d :
  b' !! d = b !! d -> requests b l d -> requests b' l d.
Proof.
  intros Heq (s & Hs & Hl). exists s. by rewrite (labelDoAt_eq b b' d Heq).
Qed.

Lemma requests_inj b l l' d : requests b l d -> requests b l' d -> l = l'.
Proof. intros (s & Hs & <-) (s' & Hs' & <-). congruence. Qed.

Lemma GetPossibleLoopEndLabel_kept c :
  GetPossibleLoopEndLabel c ≠ 0%N ->
  GetPossibleLoopEndLabel c ∈ kept (Executable c).
Proof.
  destruct c as [s|s|e|[s body e]|k bs]; simpl; try done.
  - destruct (label s); [intros _; apply list_elem_of_singleton; done|done].
  - destruct (label e); [|done]. intros _.
    rewrite !elem_of_app. right; right. by apply list_elem_of_singleton.
Qed.

Lemma PostBody_metLabels b0 k st st' :
  WF st -> next st < length (block st) ->
  block st !! next st = b0 !! k ->
  metLabels b0 k st ->
  PostBody st = Ok st' ->
  metLabels b0 (S k) st'.
Proof.
  intros Hwf Hlt Hk Hmet Hst.
  destruct (lookup_lt_is_Some_2 _ _ Hlt) as [x Hx].
  assert (Hbelow : ∀ d', d' ∈ pendingDoLoopStack st -> d' < next st).
  { intros d'. destruct Hwf as (_ & Hdesc & _). by apply descending_lt. }
  destruct (PostBody_cases _ _ _ Hst Hx)
    as [[Hl ->]|[[[text ->] ->]|(c & c' & -> & Hl & Hr & Hc)]].
  - (* a label DO statement is pushed *)
    intros d s Hd Hs Hpos.
    destruct (decide (d = k)) as [->|Hne].
    + left. exists (next st). split; [by left|].
      exists s. split; [|done]. unfold labelDoAt in *. simpl. by rewrite Hk.
    + destruct (Hmet d s ltac:(lia) Hs Hpos) as [(d' & Hd' & Hreq)|Hkept].
      * left. exists d'. split; [by right|done].
      * by right.
  - intros d s Hd Hs Hpos.
    destruct (decide (d = k)) as [->|Hne].
    + unfold labelDoAt in Hs. by rewrite <- Hk, Hx in Hs.
    + apply (Hmet d s); [lia|done..].
  - intros d s Hd Hs Hpos.
    destruct (decide (d = k)) as [->|Hne].
    { unfold labelDoAt in Hs. rewrite <- Hk, Hx in Hs.
      destruct c as [| | | |]; try done. injection Hs as ->.
      simpl in Hl. lia. }
    set (b1 := <[next st := Executable c']> (block st)) in *.
    assert (Hmet1 :
      (∃ d', d' ∈ pendingDoLoopStack st ∧
             requests b1 (ld_label (statement (base s))) d') ∨
      ld_label (statement (base s)) ∈ keptLabels b1).
    { destruct (Hmet d s ltac:(lia) Hs Hpos) as [(d' & Hd' & Hreq)|Hkept].
      - left. exists d'. split; [done|].
        eapply requests_eq; [|done].
        apply list_lookup_insert_ne. specialize (Hbelow _ Hd'). lia.
      - right. by eapply keptLabels_replaced. }
    simpl in Hc. destruct (N.eqb_spec (GetPossibleLoopEndLabel c') 0) as [_|Hne0].
    { by subst st'. }
    destruct (RewritePending_keeps (GetPossibleLoopEndLabel c')
                (fun b => ∀ l, l ∈ keptLabels b1 -> l ∈ keptLabels b)
                ltac:(intros b d0 nxt s0 ? ? ? HQ l ?; simpl in HQ;
                      apply keptLabels_converted; auto)
                _ _ _ (pendingOk_insert _ _ _ (Executable c') Hlt Hwf)
                (fun _ H => H))
      as (st'' & popped & Heq & _ & Hkeep & _ & Hstack & Hpopped & Hsame).
    fold b1 in Heq, Hpopped, Hsame. rewrite Heq in Hc. injection Hc as <-.
    destruct Hmet1 as [(d' & Hd' & Hreq)|Hkept]; [|right; by apply Hkeep].
    rewrite Hstack in Hd'. apply elem_of_app in Hd' as [Hd'|Hd'].
    + right. eapply Forall_forall in Hpopped; [|done].
      rewrite (requests_inj _ _ _ _ Hreq Hpopped). apply Hkeep.
      unfold keptLabels. apply list_elem_of_bind.
      exists (Executable c'). split; [by apply GetPossibleLoopEndLabel_kept|].
      apply list_elem_of_lookup. exists (next st).
      by apply list_lookup_insert_eq.
    + left. exists d'. split; [done|].
      eapply requests_eq; [|done]. by apply Hsame.
Qed.

Lemma PostLoop_metLabels b0 : ∀ turns k st st',
  WF st -> k + turns = length b0 ->
  drop (next st) (block st) = drop k b0 ->
  metLabels b0 k st ->
  PostLoop turns st = Ok st' ->
  metLabels b0 (length b0) st'.
Proof.
  induction turns as [|turns IH]; intros k st st' Hwf Hk Hdrop Hmet Hst.
  - simpl in Hst. injection Hst as <-. by replace (length b0) with k by lia.
  - simpl in Hst. destruct (PostBody st) as [st1| | |] eqn:H1; try done.
    simpl in Hst.
    assert (Hlt : next st < length (block st)).
    { apply (f_equal length) in Hdrop. rewrite !length_drop in Hdrop. lia. }
    destruct (PostBody_keeps (fun _ => True) st st1 ltac:(done) ltac:(done)
                Hwf Hlt I H1) as (Hwf1 & _ & Hdrop1).
    apply (IH (S k) st1 st' Hwf1); [lia| | |done].
    + rewrite Hdrop1.
      by rewrite <- (Nat.add_1_r (next st)), <- (Nat.add_1_r k),
        <- !drop_drop, Hdrop.
    + apply (PostBody_metLabels b0 k st st1); try done.
      apply (f_equal (fun l => l !! 0)) in Hdrop.
      by rewrite !lookup_drop, !Nat.add_0_r in Hdrop.
Qed.

(** *** The closed form of a closing turn *)

Lemma rewritten_start (b : Block) nxt : rewritten b nxt (nxt, []) = b.
Proof. unfold rewritten. simpl. apply take_drop. Qed.

Lemma RewritePending_closed l b nxt ds rest :
  nxt ≤ length b ->
  descending nxt ds ->
  Forall (requests b l) ds ->
  stopsAt b l (wrapPending b nxt ds).1 rest ->
  RewritePending l b nxt (ds ++ rest) =
    Ok (mkPostState (rewritten b nxt (wrapPending b nxt ds))
          ((wrapPending b nxt ds).1 + length (wrapPending b nxt ds).2) rest).
Proof.
  intros Hn Hdesc Hreq Hstop.
  pose proof (RewritePending_fold l b nxt ds nxt [] rest ltac:(lia) Hn
                Hdesc Hreq Hstop) as H.
  rewrite rewritten_start in H. simpl length in H.
  by rewrite Nat.add_0_r in H.
Qed.

(** After one loop or more the wrapped part is one DO construct, without
    labels, with the name and the loop control of the outermost header. *)
Lemma foldl_wrapHeader_shape b l ds : ∀ d acc,
  Forall (requests b l) (d :: ds) ->
  ∃ s body,
    labelDoAt b (outermost d (d :: ds)) = Some s ∧
    foldl (wrapHeader b) acc (d :: ds) =
      (outermost d (d :: ds), [Executable (Do (blockDo s body))]).
Proof.
  induction ds as [|d' ds IH]; intros d acc Hreq.
  - apply Forall_cons_1 in Hreq as [(s & Hs & _) _].
    exists s, (take (acc.1 - S d) (drop (S d) b) ++ acc.2).
    split; [done|]. simpl. unfold wrapHeader.
    by rewrite (labelDoAt_Some _ _ _ Hs).
  - apply Forall_cons_1 in Hreq as [_ Hreq].
    destruct (IH d' (wrapHeader b acc d) Hreq) as (s & body & Hs & Heq).
    exists s, body. split; [done|]. exact Heq.
Qed.

Lemma foldl_wrapHeader_closes b l x ds : ∀ hi tail,
  descending hi ds ->
  Forall (requests b l) ds ->
  (∀ pre, closes x (pre ++ tail)) ->
  ∀ o, (foldl (wrapHeader b) (hi, tail) ds).2 = [Executable (Do o)] ->
  tail = [Executable (Do o)] ∨ closes x (bodyOf o).
Proof.
  induction ds as [|d ds IH]; intros hi tail Hdesc Hreq Htail o Ho.
  - by left.
  - right. destruct Hdesc as [Hd Hdesc].
    apply Forall_cons_1 in Hreq as [(s & Hs%labelDoAt_Some & _) Hreq].
    simpl in Ho. unfold wrapHeader at 2 in Ho. rewrite Hs in Ho. simpl in Ho.
    set (body := take (hi - S d) (drop (S d) b) ++ tail) in *.
    assert (Htail' : ∀ pre,
      closes x (pre ++ [Executable (Do (blockDo s body))]))
      by (intros pre; apply closes_nested, Htail).
    destruct (IH d _ Hdesc Hreq Htail' o Ho) as [[= <-]|Hc]; [|done].
    apply Htail.
Qed.

Lemma stopsAt_eq (b b' : Block) l hi rest :
  (∀ d, d < hi -> b' !! d = b !! d) -> stopsAt b l hi rest -> stopsAt b' l hi rest.
Proof.
  intros Heq. destruct rest as [|d rest]; [done|].
  intros (Hd & h & Hh & Hne). split; [done|]. exists h. by rewrite Heq.
Qed.

Lemma outermost_le hi ds : descending hi ds -> outermost hi ds ≤ hi.
Proof.
  revert hi. induction ds as [|d ds IH]; intros hi Hdesc; [done|].
  destruct Hdesc as [Hd Hdesc]. specialize (IH d Hdesc).
  unfold outermost in *. simpl. lia.
Qed.



(** The turn at a labelled node [c] (after [ReplaceEndDoStmt]: [c']) with
    the loops [ds] on top of the stack requesting its label. *)
Lemma PostBody_closing st c c' l ds rest :
  block st !! next st = Some (Executable c) ->
  GetLabelDoLoopLabel (Executable c) = 0%N ->
  replaced c c' ->
  GetPossibleLoopEndLabel c' = l -> (0 < l)%N ->
  pendingDoLoopStack st = ds ++ rest -> ds ≠ [] ->
  descending (next st) ds ->
  Forall (requests (block st) l) ds ->
  stopsAt (block st) l (outermost (next st) ds) rest ->
  let b1 := <[next st := Executable c']> (block st) in
  let acc := wrapPending b1 (S (next st)) ds in
  PostBody st =
    Ok (mkPostState (take acc.1 b1 ++ acc.2 ++ drop (S (next st)) b1)
          (S acc.1) rest) ∧
  acc.1 = outermost (next st) ds ∧
  ∃ s body, labelDoAt (block st) acc.1 = Some s ∧
            acc.2 = [Executable (Do (blockDo s body))].
Proof.
  intros Hx Hl0 Hr Hl Hpos Hstack Hne Hdesc Hreq Hstop b1 acc.
  assert (Hlt : next st < length (block st)) by (eapply lookup_lt_Some; eauto).
  assert (Hsame : ∀ d, d < next st -> b1 !! d = block st !! d)
    by (intros d Hd; apply list_lookup_insert_ne; lia).
  assert (Hreq1 : Forall (requests b1 l) ds).
  { apply Forall_forall. intros d Hd.
    eapply requests_eq; [|by eapply Forall_forall in Hreq].
    apply Hsame. by eapply descending_lt. }
  destruct ds as [|d0 ds]; [done|].
  destruct (foldl_wrapHeader_shape b1 l ds d0 (S (next st), []) Hreq1)
    as (s & body & Hs & Hacc).
  change (foldl (wrapHeader b1) (S (next st), []) (d0 :: ds)) with acc in Hacc.
  change (outermost d0 (d0 :: ds)) with (outermost (next st) (d0 :: ds)) in *.
  pose proof (outermost_le _ _ Hdesc) as Hle.
  assert (Hclosed : RewritePending l b1 (S (next st)) ((d0 :: ds) ++ rest) =
    Ok (mkPostState (take acc.1 b1 ++ acc.2 ++ drop (S (next st)) b1)
          (S acc.1) rest)).
  { rewrite (RewritePending_closed l b1 (S (next st)) (d0 :: ds) rest).
    - fold acc. unfold rewritten. rewrite Hacc. simpl. do 2 f_equal. lia.
    - unfold b1. rewrite length_insert. lia.
    - eapply descending_weaken; [|done]. lia.
    - done.
    - fold acc. rewrite Hacc. cbn [fst].
      eapply stopsAt_eq; [|done]. intros d Hd. apply Hsame. lia. }
  split_and!.
  - rewrite <- Hclosed, <- Hstack.
    destruct Hr as [[He ->]|(e & lab & -> & Hlab & Hlabpos & -> & Hg)].
    + rewrite (PostBody_plain st c Hx Hl0 He), Hl.
      assert ((l =? 0)%N = false) as -> by (apply N.eqb_neq; lia).
      unfold b1. by rewrite (list_insert_id _ _ _ Hx).
    + simpl in Hl. subst lab.
      apply Forall_cons_1 in Hreq as [(s0 & Hs0%labelDoAt_Some & Hl0') _].
      destruct Hdesc as [Hd0 _].
      eapply (PostBody_endDo st e l d0 (ds ++ rest)); eauto.
      lia.
  - by rewrite Hacc.
  - exists s, body. rewrite Hacc. split; [|done].
    rewrite <- (labelDoAt_eq (block st) b1); [done|].
    apply Hsame. destruct Hdesc as [Hd0 Hdesc'].
    pose proof (outermost_le _ _ Hdesc'). unfold outermost in *. simpl. lia.
Qed.

(** *** Closing turns, labels, pending loops and bare END DO statements *)






(** The two loops of the spec's shared label scenario, in closed form: the
    inner loop holds the nodes between its header and the terminal node,
    the outer loop the nodes between the two headers and then the inner
    loop. *)
Lemma wrapPending_two (b : Block) nxt d1 d2 s1 s2 :
  labelDoAt b d1 = Some s1 -> labelDoAt b d2 = Some s2 ->
  wrapPending b nxt [d1; d2] =
    (d2, [Executable (Do (blockDo s2
            (take (d1 - S d2) (drop (S d2) b) ++
             [Executable (Do (blockDo s1
                (take (nxt - S d1) (drop (S d1) b))))])))]).
Proof.
  intros H1%labelDoAt_Some H2%labelDoAt_Some.
  unfold wrapPending. simpl. unfold wrapHeader.
  rewrite H1. simpl. rewrite H2. simpl. by rewrite app_nil_r.
Qed.

(** C9, as amended.  A DO construct whose END DO statement has the label
    [l] ends pending loops that request [l] like a labelled statement does,
    with the same stopping rule: the loops [ds], one or more, on top of the
    stack that request [l] are popped and converted, down to the first loop
    that requests another label ([stopsAt]); that loop and whatever is below
    it, [rest], stay pending, be there a loop that requests [l] among them
    or not.  The construct itself is not changed, and it is the last node
    of the innermost new body, so that every new body ends with it
    ([closes]).  When the stack is empty or the loop on top of it requests
    another label, nothing is popped and the construct is passed. *)
Theorem do_construct_with_labelled_end_do_closes_loops st dc l :
  block st !! next st = Some (Executable (Do dc)) ->
  label (endDoOf dc) = Some l -> (0 < l)%N ->
  (∀ ds rest,
     pendingDoLoopStack st = ds ++ rest -> ds ≠ [] ->
     descending (next st) ds ->
     Forall (requests (block st) l) ds ->
     stopsAt (block st) l (outermost (next st) ds) rest ->
     let acc := wrapPending (block st) (S (next st)) ds in
     PostBody st =
       Ok (mkPostState
             (take acc.1 (block st) ++ acc.2 ++ drop (S (next st)) (block st))
             (S acc.1) rest) ∧
     acc.1 = outermost (next st) ds ∧
     ∃ s body, labelDoAt (block st) acc.1 = Some s ∧
               acc.2 = [Executable (Do (blockDo s body))] ∧
               closes (Executable (Do dc)) body) ∧
  (stopsAt (block st) l (next st) (pendingDoLoopStack st) ->
   PostBody st = Ok (passed (block st) st)).
Proof.
  intros Hx Hlab Hpos.
  assert (Hg : GetPossibleLoopEndLabel (Do dc) = l) by (simpl; by rewrite Hlab).
  split.
  2: { intros Hstop.
       rewrite (PostBody_plain st (Do dc) Hx eq_refl eq_refl), Hg.
       assert ((l =? 0)%N = false) as -> by (apply N.eqb_neq; lia).
       unfold passed.
       destruct (pendingDoLoopStack st) as [|d rest]; [done|].
       destruct Hstop as (Hd & h & Hh & Hne). simpl. rewrite Hh.
       apply N.eqb_neq in Hne. by rewrite Hne. }
  intros ds rest Hstack Hne Hdesc Hreq Hstop acc.
  destruct (PostBody_closing st (Do dc) (Do dc) l ds rest Hx eq_refl
              ltac:(by left) Hg Hpos Hstack Hne Hdesc Hreq Hstop)
    as (Hpost & Hacc & s & body & Hs & Htail).
  rewrite (list_insert_id _ _ _ Hx) in Hpost, Hacc, Hs, Htail.
  fold acc in Hpost, Hacc, Hs, Htail.
  split_and!; [done|done|]. exists s, body. split_and!; [done|done|].
  destruct ds as [|d0 ds]; [done|]. destruct Hdesc as [Hd0 Hdesc].
  apply Forall_cons_1 in Hreq as [(s0 & Hs0 & Hl0) Hreq].
  pose proof (labelDoAt_Some _ _ _ Hs0) as Hb0.
  assert (Hlt : d0 < next st).
  { destruct (decide (d0 = next st)) as [->|]; [|lia]. congruence. }
  unfold acc, wrapPending in Htail. simpl in Htail.
  unfold wrapHeader at 2 in Htail. rewrite Hb0 in Htail. simpl in Htail.
  rewrite app_nil_r in Htail.
  set (body0 := take (next st - d0) (drop (S d0) (block st))) in *.
  assert (Hbody0 : closes (Executable (Do dc)) body0).
  { unfold body0. replace (next st - d0) with (S (next st - S d0)) by lia.
    erewrite take_S_r; [apply closes_last|].
    rewrite lookup_drop, <- Hx. f_equal. lia. }
  destruct (foldl_wrapHeader_closes (block st) l (Executable (Do dc)) ds d0
              [Executable (Do (blockDo s0 body0))] Hdesc Hreq
              ltac:(intros pre; by apply closes_nested)
              (blockDo s body) Htail) as [Heq|Hc]; [|done].
  apply (f_equal (fun t => match t with
                           | [Executable (Do d)] => bodyOf d
                           | _ => []
                           end)) in Heq.
  simpl in Heq. by rewrite <- Heq.
Qed.

(** In [endsInLoop] the label DO loop to 10 is closed by the DO construct
    whose END DO has the label 10. *)
Lemma do_construct_with_labelled_end_do_closes_loops_witness :
  PostBody (mkPostState endsInLoop 2 [0]) =
    Ok (mkPostState
          [ Executable (Do (mkDoConstruct
              (newStatement None
                 (mkNonLabelDoStmt (Some "outer") (Some (While "i"))))
              [ action None "a";
                blockLoop None "j" [action None "b"] (Some 10%N) ]
              (newStatement None (mkEndDoStmt None)))) ]
          1 []).
Proof.
  refine (proj1 (proj1 (do_construct_with_labelled_end_do_closes_loops
    (mkPostState endsInLoop 2 [0]) _ 10%N eq_refl eq_refl eq_refl) [0] []
    eq_refl _ _ _ I)).
  - discriminate.
  - simpl. lia.
  - repeat constructor. eexists. split; reflexivity.
Defined.

(** C9 as stated fails: not every pending loop that requests the label is
    popped.  In [blockedByInner] the loop at 0 requests 10 and the DO
    construct at 2 has [10 END DO], but the loop on top of the stack requests
    20: the turn pops nothing, and [Post] dies with both loops stacked. *)
Lemma loop_below_another_label_stays_pending :
  (∃ dc, blockedByInner !! 2 = Some (Executable (Do dc)) ∧
         label (endDoOf dc) = Some 10%N) ∧
  requests blockedByInner 10%N 0 ∧
  PostBody (mkPostState blockedByInner 2 [1; 0]) =
    Ok (mkPostState blockedByInner 3 [1; 0]) ∧
  PostLoop 2 (mkPostState blockedByInner 0 []) =
    Ok (mkPostState blockedByInner 2 [1; 0]) ∧
  Post blockedByInner = Die 2 20%Z.
Proof.
  split_and!; try reflexivity.
  - eexists. split; reflexivity.
  - eexists. split; reflexivity.
Qed.

Lemma Post_Ok_inv b b' :
  Post b = Ok b' ->
  ∃ st, PostLoop (length b) (mkPostState b 0 []) = Ok st ∧
        pendingDoLoopStack st = [] ∧ block st = b'.
Proof.
  unfold Post.
  destruct (PostLoop (length b) (mkPostState b 0 [])) as [st| | |]; try done.
  simpl. destruct (pendingDoLoopStack st) as [|back popped] eqn:Hstack.
  - intros [= <-]. by exists st.
  - by destruct (block st !! back).
Qed.

(** C2, as amended.  When [Post] returns the block [b'], the label that a
    label DO statement of [b] requests is the label of a statement of the
    tree [b']; every DO construct of [b'] that was not a DO construct of [b]
    has unlabeled DO and END DO statements; and a bare END DO statement with
    a label is replaced by a CONTINUE statement with that label.  (A DO
    construct of [b] keeps its labels: when it is the terminal node, its END
    DO statement still has the label.) *)
Theorem terminal_labels_stay_defined b b' :
  Post b = Ok b' ->
  (∀ d s, labelDoAt b d = Some s ->
     (0 < ld_label (statement (base s)))%N ->
     ld_label (statement (base s)) ∈ definedLabels b') ∧
  (∀ dn, dn ∈ doNodes b' -> dn ∈ doNodes b ∨ unlabeled dn) ∧
  (∀ e lab, label e = Some lab -> (0 < lab)%N ->
     ReplaceEndDoStmt (EndDoStatement e) =
       Ok (ActionStatement (newStatement (Some lab) ContinueStmt), lab)).
Proof.
  intros (st & Hloop & Hstack & <-)%Post_Ok_inv. split_and!.
  - intros d s Hs Hpos.
    assert (Hd : d < length b).
    { apply labelDoAt_Some in Hs. by eapply lookup_lt_Some. }
    pose proof (PostLoop_metLabels b (length b) 0 (mkPostState b 0 []) st
                  (WF_init b) eq_refl eq_refl
                  ltac:(intros ? ? ?; lia) Hloop) as Hmet.
    destruct (Hmet d s Hd Hs Hpos) as [(d' & Hd' & _)|Hkept].
    + rewrite Hstack in Hd'. by apply elem_of_nil in Hd'.
    + by apply keptLabels_defined.
  - set (Q := fun blk : Block =>
             ∀ dn, dn ∈ doNodes blk -> dn ∈ doNodes b ∨ unlabeled dn).
    assert (Hconv : ∀ blk d nxt s,
      labelDoAt blk d = Some s -> d < nxt -> nxt ≤ length blk -> Q blk ->
      Q (take d blk ++
         [Executable (Do (blockDo s (take (nxt - S d) (drop (S d) blk))))] ++
         drop nxt blk))
      by (intros blk d nxt s ? ? ? HQ; unfold Q in *;
          by apply (doNodes_converted (fun dn => dn ∈ doNodes b))).
    assert (Hrepl : ∀ blk i c c',
      blk !! i = Some (Executable c) -> replaced c c' -> Q blk ->
      Q (<[i := Executable c']> blk))
      by (intros blk i c c' ? ? HQ; unfold Q in *;
          by eapply (doNodes_replaced (fun dn => dn ∈ doNodes b))).
    assert (HQ0 : Q b) by (intros dn; auto).
    by destruct (PostLoop_keeps Q Hconv Hrepl (length b) (mkPostState b 0 [])
                   st (WF_init b) eq_refl HQ0 Hloop) as (_ & HQ & _).
  - intros e lab. apply ReplaceEndDoStmt_endDo.
Qed.

(** [ownEndDo]: both bare END DO statements become CONTINUE statements that
    keep the labels 20 and 10. *)
Lemma terminal_labels_stay_defined_witness :
  10%N ∈ definedLabels
    [ Executable (Do (blockDo
        (mkStatement
           (mkUnlabeled (mkCharBlock 7 12)
              (mkLabelDoStmt None 10%N (Some (While "i")))) None)
        [ action None "a";
          Executable (Do (blockDo
            (mkStatement
               (mkUnlabeled (mkCharBlock 7 12)
                  (mkLabelDoStmt None 20%N (Some (While "j")))) None)
            [ action None "b"; continueAt 20%N ]));
          continueAt 10%N ]));
      action None "d" ].
Proof.
  refine (proj1 (terminal_labels_stay_defined ownEndDo _ eq_refl) 0 _
            eq_refl _).
  reflexivity.
Defined.

(** C2 as stated fails where the terminal node is itself a DO construct: in
    [endsInLoop] the loop to label 10 is converted, and in the result the
    END DO statement of the inner DO construct has the label 10. *)
Lemma terminal_label_on_loop_node :
  ∃ b', Post endsInLoop = Ok b' ∧
        requests endsInLoop 10%N 0 ∧
        ¬ noLoopCarries b' 10%N.
Proof.
  eexists. split; [reflexivity|]. split.
  - eexists. split; reflexivity.
  - intros H.
    destruct (H (mkDoConstruct
                (newStatement None (mkNonLabelDoStmt None (Some (While "j"))))
                [action None "b"]
                (newStatement (Some 10%N) (mkEndDoStmt None)))) as [_ Hend].
    + simpl. apply elem_of_cons. right. apply elem_of_cons. by left.
    + by apply Hend.
Qed.






(** C4, as amended.  A bare END DO statement that the topmost pending loop
    does not request (the stack is empty, or its topmost loop requests
    another label) fails a [CHECK]: the pass aborts.  A labelled action
    statement that no pending loop on top of the stack requests is passed:
    the block and the stack stay as they are. *)
Theorem unrequested_end_do_fails_check st :
  (∀ e, block st !! next st = Some (Executable (EndDoStatement e)) ->
        WF st ->
        match pendingDoLoopStack st with
        | [] => True
        | back :: _ =>
            ∀ s, labelDoAt (block st) back = Some s ->
                 label e ≠ Some (ld_label (statement (base s)))
        end ->
        ∃ text, PostBody st = CheckFailed text) ∧
  (∀ s l, block st !! next st = Some (Executable (ActionStatement s)) ->
          label s = Some l ->
          stopsAt (block st) l (next st) (pendingDoLoopStack st) ->
          PostBody st = Ok (passed (block st) st)).
Proof.
  split.
  - intros e Hx (Hn & Hdesc & Hhdr) Htop. unfold PostBody. rewrite Hx.
    change (GetLabelDoLoopLabel (Executable (EndDoStatement e))) with 0%N.
    change (0 <? 0)%N with false. cbv iota. unfold ReplaceEndDoStmt.
    destruct (label e) as [lab|] eqn:He; simpl; [|by eexists].
    destruct (N.ltb_spec 0 lab) as [Hlab|Hlab]; simpl; [|by eexists].
    assert ((lab =? 0)%N = false) as -> by (apply N.eqb_neq; lia).
    destruct (pendingDoLoopStack st) as [|back popped]; simpl; [by eexists|].
    apply Forall_cons_1 in Hhdr as [[s Hs] _]. destruct Hdesc as [Hback _].
    rewrite list_lookup_insert_ne by lia.
    rewrite (labelDoAt_Some _ _ _ Hs). simpl.
    specialize (Htop s Hs).
    assert ((lab =? ld_label (statement (base s)))%N = false) as ->
      by (apply N.eqb_neq; congruence).
    by eexists.
  - intros s l Hx Hl Hstop.
    rewrite (PostBody_plain st (ActionStatement s) Hx eq_refl eq_refl).
    simpl. rewrite Hl. destruct (l =? 0)%N; [done|]. unfold passed.
    destruct (pendingDoLoopStack st) as [|d rest]; [done|].
    destruct Hstop as (Hd & h & Hh & Hne). simpl. rewrite Hh.
    apply N.eqb_neq in Hne. by rewrite Hne.
Qed.

(** [DO 20 / 10 END DO] fails the second [CHECK]; [DO 20 / 10 x] goes on. *)
Lemma unrequested_end_do_fails_check_witness :
  (∃ text,
     PostBody (mkPostState [labelDo None 20%N "i"; bareEndDo (Some 10%N)] 1 [0])
     = CheckFailed text) ∧
  PostBody (mkPostState [labelDo None 20%N "i"; action (Some 10%N) "x"] 1 [0])
  = Ok (mkPostState [labelDo None 20%N "i"; action (Some 10%N) "x"] 2 [0]).
Proof.
  split.
  - refine (proj1 (unrequested_end_do_fails_check
      (mkPostState [labelDo None 20%N "i"; bareEndDo (Some 10%N)] 1 [0]))
      _ eq_refl _ _).
    + split_and!; simpl; [lia|lia|].
      repeat constructor. by eexists.
    + simpl. intros s [= <-]. discriminate.
  - refine (proj2 (unrequested_end_do_fails_check
      (mkPostState [labelDo None 20%N "i"; action (Some 10%N) "x"] 1 [0]))
      _ 10%N eq_refl eq_refl _).
    split; [simpl; lia|]. eexists. split; [reflexivity|discriminate].
Defined.

(** C4 as stated fails: a bare END DO statement met with no pending loop
    that requests its label is not left as it is, the pass fails a [CHECK]
    on it, be the stack empty or not. *)
Lemma bare_end_do_alone_aborts :
  Post [action None "a"; bareEndDo (Some 10%N)] =
    CheckFailed "!pendingDoLoopStack.empty()" ∧
  Post [labelDo None 20%N "i"; bareEndDo (Some 10%N); bareEndDo (Some 20%N)] =
    CheckFailed "endDoLabel == GetLabelDoLoopLabel(back)".
Proof. split; reflexivity. Qed.

(** *** Canonical trees *)

Lemma PostBody_plain_node (b : Block) i x :
  b !! i = Some x -> plain x = true ->
  PostBody (mkPostState b i []) = Ok (mkPostState b (S i) []).
Proof.
  intros Hx Hp. destruct x as [c|text].
  - rewrite (PostBody_plain (mkPostState b i []) c Hx);
      [|by destruct c..].
    simpl. by destruct (_ =? 0)%N.
  - by rewrite (PostBody_other_part (mkPostState b i []) text Hx).
Qed.

Lemma PostLoop_plain (b : Block) : ∀ turns i,
  Forall (fun x => plain x = true) b ->
  i + turns ≤ length b ->
  PostLoop turns (mkPostState b i []) = Ok (mkPostState b (i + turns) []).
Proof.
  induction turns as [|turns IH]; intros i Hb Hi; simpl.
  - by rewrite Nat.add_0_r.
  - destruct (lookup_lt_is_Some_2 b i ltac:(lia)) as [x Hx].
    rewrite (PostBody_plain_node b i x Hx).
    + simpl. rewrite IH by (done || lia). do 2 f_equal. lia.
    + eapply Forall_lookup in Hb; eauto.
Qed.

(** A block without label DO statements and bare END DO statements among
    its nodes comes back as it is. *)
Lemma Post_plain b : Forall (fun x => plain x = true) b -> Post b = Ok b.
Proof.
  intros Hb. unfold Post. by rewrite (PostLoop_plain b (length b) 0 Hb).
Qed.

Lemma mapM_id {A : Type} (f : A -> outcome A) l :
  Forall (fun x => f x = Ok x) l -> mapM f l = Ok l.
Proof.
  induction 1 as [|x l Hx _ IH]; simpl; [done|]. rewrite Hx. simpl.
  fold (mapM f l). by rewrite IH.
Qed.

Lemma forallb_true {A : Type} (f : A -> bool) l :
  forallb f l = true -> Forall (fun x => f x = true) l.
Proof.
  induction l as [|x l IH]; simpl; [done|].
  intros [Hx Hl]%andb_true_iff. apply Forall_cons. auto.
Qed.

Lemma legacyFree_plain x : legacyFree x = true -> plain x = true.
Proof. by destruct x as [[| | | |]|]. Qed.

Lemma canonical_plain b :
  canonical b = true -> Forall (fun x => plain x = true) b.
Proof.
  intros Hb%forallb_true. eapply Forall_impl; [done|].
  apply legacyFree_plain.
Qed.

Lemma mapM_Walk_canonical b :
  Forall (fun x => legacyFree x = true -> Walk x = Ok x) b ->
  canonical b = true -> mapM Walk b = Ok b.
Proof.
  intros IH Hb%forallb_true. apply mapM_id.
  eapply Forall_impl; [apply Forall_and; split; [exact IH|exact Hb]|].
  intros x [Hx Hf]. by apply Hx.
Qed.

Lemma Walk_canonical x : legacyFree x = true -> Walk x = Ok x.
Proof.
  induction x as [text|s|s|s|s body e IH|kind blocks IH] using tree_ind;
    try done.
  - simpl. intros Hb. fold (mapM Walk body).
    rewrite (mapM_Walk_canonical body IH Hb). simpl.
    by rewrite (Post_plain body (canonical_plain _ Hb)).
  - simpl. intros Hbs%forallb_true.
    rewrite (mapM_id _ blocks); [done|].
    eapply Forall_impl; [apply Forall_and; split; [exact IH|exact Hbs]|].
    intros b [Hb Hc]. simpl. fold (mapM Walk b).
    rewrite (mapM_Walk_canonical b Hb Hc). simpl.
    by apply Post_plain, canonical_plain.
Qed.

(** C5.  On a tree without label DO statements and bare END DO statements
    [CanonicalizeDo] returns the tree itself; so does a second run on the
    result. *)
Theorem canonical_tree_is_unchanged b :
  canonical b = true ->
  CanonicalizeDo b = Ok b ∧
  (b' ← CanonicalizeDo b; CanonicalizeDo b') = Ok b.
Proof.
  intros Hb.
  assert (H : CanonicalizeDo b = Ok b).
  { unfold CanonicalizeDo. rewrite (mapM_Walk_canonical b); [|  |done].
    - simpl. by apply Post_plain, canonical_plain.
    - apply Forall_forall. intros x _. apply Walk_canonical. }
  split; [done|]. by rewrite H.
Qed.

Lemma canonical_tree_is_unchanged_witness :
  CanonicalizeDo alreadyBlock = Ok alreadyBlock.
Proof. exact (proj1 (canonical_tree_is_unchanged alreadyBlock eq_refl)). Defined.

(** *** What the pass keeps and what it never does *)

Lemma PostLoop_frame b0 : ∀ turns k st st',
  WF st -> drop (next st) (block st) = drop k b0 ->
  k + turns ≤ length b0 ->
  PostLoop turns st = Ok st' ->
  WF st' ∧ drop (next st') (block st') = drop (k + turns) b0.
Proof.
  induction turns as [|turns IH]; intros k st st' Hwf Hdrop Hk Hst.
  - simpl in Hst. injection Hst as <-. by rewrite Nat.add_0_r.
  - simpl in Hst. destruct (PostBody st) as [st1| | |] eqn:H1; try done.
    simpl in Hst.
    assert (Hlt : next st < length (block st)).
    { apply (f_equal length) in Hdrop. rewrite !length_drop in Hdrop. lia. }
    destruct (PostBody_keeps (fun _ => True) st st1 ltac:(done) ltac:(done)
                Hwf Hlt I H1) as (Hwf1 & _ & Hdrop1).
    replace (k + S turns) with (S k + turns) by lia.
    apply (IH (S k) st1 st' Hwf1); [|lia|done].
    rewrite Hdrop1.
    by rewrite <- (Nat.add_1_r (next st)), <- (Nat.add_1_r k),
      <- !drop_drop, Hdrop.
Qed.

(** X1.  After any number of turns of the outer loop, the nodes that have
    not been visited are still in the block, unchanged and in their order,
    from [next] on; and the pending stack holds positions of label DO
    statements of the block, strictly descending, all before [next]. *)
Theorem unvisited_nodes_are_untouched b turns st :
  turns ≤ length b ->
  PostLoop turns (mkPostState b 0 []) = Ok st ->
  drop (next st) (block st) = drop turns b ∧
  next st ≤ length (block st) ∧
  descending (next st) (pendingDoLoopStack st) ∧
  Forall (fun d => is_Some (labelDoAt (block st) d)) (pendingDoLoopStack st).
Proof.
  intros Hturns Hst.
  destruct (PostLoop_frame b turns 0 (mkPostState b 0 []) st (WF_init b)
              eq_refl ltac:(simpl; lia) Hst) as ((Hn & Hdesc & Hhdr) & Hdrop).
  by split_and!.
Qed.

Lemma unvisited_nodes_are_untouched_witness :
  drop 2 [ labelDo None 20%N "w";
           Executable (Do (blockDo
             (mkStatement
                (mkUnlabeled (mkCharBlock 7 12)
                   (mkLabelDoStmt None 10%N (Some (While "i")))) None)
             [ action None "a";
               Executable (Do (blockDo
                 (mkStatement
                    (mkUnlabeled (mkCharBlock 7 12)
                       (mkLabelDoStmt (Some "inner") 10%N (Some (While "j"))))
                    None)
                 [ action None "b"; action (Some 10%N) "c" ])) ]));
           action None "d" ]
  = drop 6 sharedLabel.
Proof.
  exact (proj1 (unvisited_nodes_are_untouched sharedLabel 6
    (mkPostState _ 2 [0]) ltac:(simpl; lia) eq_refl)).
Defined.

Lemma bind_clean {A B : Type} (m : outcome A) (k : A -> outcome B) :
  clean m -> (∀ a, clean (k a)) -> clean (m ≫= k).
Proof. destruct m; simpl; auto. Qed.

Lemma CHECK_bind_clean {B : Type} x text (k : unit -> outcome B) :
  (x = true -> clean (k tt)) -> clean (CHECK x text ≫= k).
Proof. destruct x; simpl; auto. Qed.

Lemma ReplaceEndDoStmt_clean c : clean (ReplaceEndDoStmt c).
Proof.
  destruct c as [| |e| |]; simpl; try done.
  destruct (label e) as [lab|]; simpl; [|done].
  by destruct (0 <? lab)%N.
Qed.

(** A turn of the outer loop goes on or fails a [CHECK]. *)
Lemma PostBody_clean st :
  WF st -> next st < length (block st) -> clean (PostBody st).
Proof.
  intros Hwf Hlt.
  destruct (lookup_lt_is_Some_2 _ _ Hlt) as [x Hx].
  assert (Hrw : ∀ l c', clean (RewritePending l
            (<[next st := Executable c']> (block st)) (S (next st))
            (pendingDoLoopStack st))).
  { intros l c'.
    destruct (RewritePending_keeps l (fun _ => True) ltac:(done) _ _ _
                (pendingOk_insert _ _ _ (Executable c') Hlt Hwf) I)
      as (st' & ? & -> & _). done. }
  unfold PostBody. rewrite Hx.
  destruct (0 <? GetLabelDoLoopLabel x)%N; [done|].
  destruct x as [c|]; [|done].
  apply bind_clean; [apply ReplaceEndDoStmt_clean|]. intros [c' l].
  apply bind_clean.
  - destruct (l =? 0)%N; [done|].
    apply CHECK_bind_clean. intros Hne.
    destruct Hwf as (Hn & Hdesc & Hhdr).
    destruct (pendingDoLoopStack st) as [|back popped]; [done|].
    apply Forall_cons_1 in Hhdr as [[s Hs%labelDoAt_Some] _].
    destruct Hdesc as [Hback _].
    rewrite list_lookup_insert_ne by lia. rewrite Hs. simpl.
    by destruct (_ =? _)%N.
  - intros _. destruct (_ =? 0)%N; [done|apply Hrw].
Qed.

Lemma PostLoop_clean turns : ∀ st,
  WF st -> next st + turns = length (block st) -> clean (PostLoop turns st).
Proof.
  induction turns as [|turns IH]; intros st Hwf Hn; [done|].
  simpl. pose proof (PostBody_clean st Hwf ltac:(lia)) as Hc.
  destruct (PostBody st) as [st1| | |] eqn:H1; simpl; try done.
  destruct (PostBody_keeps (fun _ => True) st st1 ltac:(done) ltac:(done)
              Hwf ltac:(lia) I H1) as (Hwf1 & _ & Hdrop).
  apply IH; [done|].
  apply (f_equal length) in Hdrop. rewrite !length_drop in Hdrop.
  destruct Hwf1 as (? & _). lia.
Qed.

(** X2.  Whatever the block, [Post] returns a block, or dies after the loop
    with at least one loop stacked and a message with what [%d] prints for
    the label that the topmost pending label DO statement requests, or fails
    a [CHECK]: the pass itself never reads an empty label, the back of an
    empty stack, or a node that is not there ([Undefined]). *)
Theorem post_outcomes b :
  (∃ b', Post b = Ok b') ∨
  (∃ n st back s,
     PostLoop (length b) (mkPostState b 0 []) = Ok st ∧
     head (pendingDoLoopStack st) = Some back ∧
     labelDoAt (block st) back = Some s ∧
     Post b = Die (S n) (printed_d (ld_label (statement (base s))))) ∨
  (∃ text, Post b = CheckFailed text).
Proof.
  pose proof (PostLoop_clean (length b) (mkPostState b 0 []) (WF_init b)
                eq_refl) as Hclean.
  unfold Post.
  destruct (PostLoop (length b) (mkPostState b 0 [])) as [st|n l|text|] eqn:Hst;
    simpl; try done.
  - destruct (PostLoop_end _ _ Hst) as ((_ & _ & Hhdr) & _).
    destruct (pendingDoLoopStack st) as [|back popped] eqn:Hstack.
    + left. by eexists.
    + right; left. apply Forall_cons_1 in Hhdr as [[s Hs] _].
      exists (length popped), st, back, s.
      rewrite (labelDoAt_Some _ _ _ Hs), Hstack. by split_and!.
  - right; right. by eexists.
Qed.

Lemma post_outcomes_aux b st :
  PostLoop (length b) (mkPostState b 0 []) = Ok st ->
  (∃ b', Post b = Ok b') ∨ (∃ n l, Post b = Die (S n) l).
Proof.
  intros Hst. unfold Post. rewrite Hst. simpl.
  destruct (PostLoop_end _ _ Hst) as ((_ & _ & Hhdr) & _).
  destruct (pendingDoLoopStack st) as [|back popped]; [left; by eexists|].
  right. apply Forall_cons_1 in Hhdr as [[s Hs%labelDoAt_Some] _].
  rewrite Hs. simpl. by eexists _, _.
Qed.

Lemma PostBody_goes_on st x :
  WF st -> block st !! next st = Some x -> notEndDo x = true ->
  ∃ st', PostBody st = Ok st'.
Proof.
  intros Hwf Hx Hne.
  assert (Hlt : next st < length (block st)) by (eapply lookup_lt_Some; eauto).
  destruct (N.ltb_spec 0 (GetLabelDoLoopLabel x)) as [Hl|Hl].
  { rewrite (PostBody_push st x Hx Hl). by eexists. }
  destruct x as [c|text]; [|rewrite (PostBody_other_part st text Hx); by eexists].
  rewrite (PostBody_plain st c Hx); [|lia|by destruct c].
  destruct (_ =? 0)%N; [by eexists|].
  destruct (RewritePending_keeps (GetPossibleLoopEndLabel c) (fun _ => True)
              ltac:(done) (pendingDoLoopStack st) (block st) (S (next st)))
    as (st' & ? & -> & _); [|done|by eexists].
  destruct Hwf as (Hn & Hdesc & Hhdr). split_and!; [lia| |done].
  eapply descending_weaken; [|done]. lia.
Qed.

Lemma PostLoop_goes_on b0 : ∀ turns k st,
  Forall (fun x => notEndDo x = true) b0 ->
  WF st -> drop (next st) (block st) = drop k b0 ->
  k + turns = length b0 ->
  ∃ st', PostLoop turns st = Ok st'.
Proof.
  induction turns as [|turns IH]; intros k st Hb Hwf Hdrop Hk.
  - by eexists.
  - assert (Hx : block st !! next st = b0 !! k).
    { apply (f_equal (fun l => l !! 0)) in Hdrop.
      by rewrite !lookup_drop, !Nat.add_0_r in Hdrop. }
    destruct (lookup_lt_is_Some_2 b0 k ltac:(lia)) as [x Hk0].
    rewrite Hk0 in Hx.
    destruct (PostBody_goes_on st x Hwf Hx) as [st1 H1].
    { eapply Forall_lookup in Hb; eauto. }
    simpl. rewrite H1. simpl.
    destruct (PostLoop_frame b0 1 k st st1 Hwf Hdrop ltac:(lia))
      as (Hwf1 & Hdrop1); [by simpl; rewrite H1|].
    apply (IH (k + 1) st1 Hb Hwf1 Hdrop1). lia.
Qed.

(** X3.  A [CHECK] fails only on a bare END DO statement: on a block with no
    bare END DO statement among its nodes [Post] returns a block or dies on
    pending loops. *)
Theorem only_end_do_fails_a_check b :
  Forall (fun x => notEndDo x = true) b ->
  (∃ b', Post b = Ok b') ∨ (∃ n l, Post b = Die (S n) l).
Proof.
  intros Hb.
  destruct (PostLoop_goes_on b (length b) 0 (mkPostState b 0 []) Hb
              (WF_init b) eq_refl eq_refl) as [st Hst].
  destruct (post_outcomes_aux b st Hst) as [[b' H]|(n & l & H)]; eauto.
Qed.

Lemma only_end_do_fails_a_check_witness :
  (∃ b', Post sharedLabel = Ok b') ∨ (∃ n l, Post sharedLabel = Die (S n) l).
Proof.
  apply only_end_do_fails_a_check. by repeat constructor.
Defined.

Lemma replaced_outlineOf c c' :
  replaced c c' -> outlineOf (Executable c') = outlineOf (Executable c).
Proof.
  intros [[_ ->]|(e & lab & -> & He & _ & -> & _)]; [done|].
  simpl. by rewrite He.
Qed.

Lemma outline_converted (b : Block) d nxt s :
  labelDoAt b d = Some s -> d < nxt -> nxt ≤ length b ->
  outline
    (take d b ++
     [Executable (Do (blockDo s (take (nxt - S d) (drop (S d) b))))] ++
     drop nxt b) = outline b.
Proof.
  intros Hs%labelDoAt_Some Hd Hn. unfold outline.
  rewrite (block_split b d nxt _ Hs Hd Hn) at 4.
  rewrite !bind_app, !bind_cons, bind_app. simpl.
  by rewrite app_nil_r.
Qed.

(** X4.  [Post] keeps the outline: the outline of the block it returns is
    the outline of the block it was given.  The loops come in the same
    order with the same construct names and loop controls, and the other
    nodes come in the same order in between, unchanged, but for the bare
    END DO statements, which are CONTINUE statements with their labels
    now.  What the outline does not have need not be kept, see
    [header_label_is_dropped]. *)
Theorem post_keeps_the_outline b b' : Post b = Ok b' -> outline b' = outline b.
Proof.
  intros (st & Hloop & _ & <-)%Post_Ok_inv.
  set (Q := fun blk : Block => outline blk = outline b).
  assert (Hconv : ∀ blk d nxt s,
    labelDoAt blk d = Some s -> d < nxt -> nxt ≤ length blk -> Q blk ->
    Q (take d blk ++
       [Executable (Do (blockDo s (take (nxt - S d) (drop (S d) blk))))] ++
       drop nxt blk)).
  { intros blk d nxt s Hs Hd Hn HQ. unfold Q in *.
    by rewrite (outline_converted blk d nxt s Hs Hd Hn). }
  assert (Hrepl : ∀ blk i c c',
    blk !! i = Some (Executable c) -> replaced c c' -> Q blk ->
    Q (<[i := Executable c']> blk)).
  { intros blk i c c' Hx Hr HQ. unfold Q, outline in *.
    by rewrite (bind_insert_same outlineOf blk i _ _ Hx
                  (replaced_outlineOf _ _ Hr)). }
  by destruct (PostLoop_keeps Q Hconv Hrepl (length b) (mkPostState b 0 [])
                 st (WF_init b) eq_refl eq_refl Hloop) as (_ & HQ & _).
Qed.

Lemma post_keeps_the_outline_witness :
  outline
    [ Executable (Do (blockDo
        (mkStatement
           (mkUnlabeled (mkCharBlock 7 12)
              (mkLabelDoStmt None 10%N (Some (While "i")))) None)
        [ action None "a";
          Executable (Do (blockDo
            (mkStatement
               (mkUnlabeled (mkCharBlock 7 12)
                  (mkLabelDoStmt None 20%N (Some (While "j")))) None)
            [ action None "b"; continueAt 20%N ]));
          continueAt 10%N ]));
      action None "d" ]
  = [ LoopItem None (Some (While "i")); LeafItem (action None "a");
      LoopItem None (Some (While "j")); LeafItem (action None "b");
      LeafItem (continueAt 20%N); LeafItem (continueAt 10%N);
      LeafItem (action None "d") ].
Proof. exact (post_keeps_the_outline ownEndDo _ eq_refl). Defined.

(** What [Post] does not keep: [MakeBlockDoLoop] gives the new DO statement
    no label, so the label 99 of the label DO statement in
    [99 DO 10 / a / 10 c] is defined nowhere afterwards, while the outline
    is the same. *)
Lemma header_label_is_dropped :
  ∃ b', Post [labelledDo 99%N 10%N "i"; action None "a"; action (Some 10%N) "c"]
          = Ok b' ∧
        definedLabels
          [labelledDo 99%N 10%N "i"; action None "a"; action (Some 10%N) "c"]
          = [99%N; 10%N] ∧
        definedLabels b' = [10%N].
Proof. eexists. split_and!; reflexivity. Qed.

Lemma replaced_labelsOf c c' :
  replaced c c' -> labelsOf (Executable c') = labelsOf (Executable c).
Proof.
  intros [[_ ->]|(e & lab & -> & He & _ & -> & _)]; [done|].
  simpl. by rewrite He.
Qed.

(** X5.  [Post] invents no label: every label that a statement of the tree
    it returns has is the label of a statement of the tree it was given. *)
Theorem post_invents_no_label b b' l :
  Post b = Ok b' -> l ∈ definedLabels b' -> l ∈ definedLabels b.
Proof.
  intros (st & Hloop & _ & <-)%Post_Ok_inv.
  set (Q := fun blk : Block => l ∈ definedLabels blk -> l ∈ definedLabels b).
  assert (Hconv : ∀ blk d nxt s,
    labelDoAt blk d = Some s -> d < nxt -> nxt ≤ length blk -> Q blk ->
    Q (take d blk ++
       [Executable (Do (blockDo s (take (nxt - S d) (drop (S d) blk))))] ++
       drop nxt blk)).
  { intros blk d nxt s Hs%labelDoAt_Some Hd Hn HQ. unfold Q, definedLabels in *.
    rewrite elem_of_bind_converted. simpl. rewrite app_nil_r.
    intros H. apply HQ.
    rewrite (elem_of_bind_split labelsOf blk d nxt _ l Hs Hd Hn). tauto. }
  assert (Hrepl : ∀ blk i c c',
    blk !! i = Some (Executable c) -> replaced c c' -> Q blk ->
    Q (<[i := Executable c']> blk)).
  { intros blk i c c' Hx Hr HQ. unfold Q, definedLabels in *.
    by rewrite (bind_insert_same labelsOf blk i _ _ Hx
                  (replaced_labelsOf _ _ Hr)). }
  by destruct (PostLoop_keeps Q Hconv Hrepl (length b) (mkPostState b 0 [])
                 st (WF_init b) eq_refl ltac:(by unfold Q) Hloop)
    as (_ & HQ & _).
Qed.

Lemma post_invents_no_label_witness : 20%N ∈ definedLabels ownEndDo.
Proof.
  refine (post_invents_no_label ownEndDo _ 20%N eq_refl _).
  apply list_elem_of_In. simpl. auto.
Defined.

Lemma replaced_inert c c' :
  GetLabelDoLoopLabel (Executable c) = 0%N -> replaced c c' ->
  inert (Executable c') = true.
Proof.
  intros Hl [[He ->]|(e & lab & -> & _ & _ & -> & _)]; [|done].
  unfold inert. rewrite Hl. by destruct c.
Qed.

Section Visited.
Variable N : ExecutionPartConstruct -> Prop.
Hypothesis N_blockDo : ∀ s body,
  Forall (fun x => inert x = true ∧ N x) body ->
  N (Executable (Do (blockDo s body))).
Hypothesis N_replaced : ∀ c c',
  replaced c c' -> N (Executable c) -> N (Executable c').

Lemma RewritePending_visitedOk l : ∀ stack b nxt st',
  pendingOk b nxt stack ->
  visitedOk (mkPostState b nxt stack) -> Forall N b ->
  RewritePending l b nxt stack = Ok st' ->
  visitedOk st' ∧ Forall N (block st').
Proof using N_blockDo.
  induction stack as [|d stack IH]; intros b nxt st' Hok Hv HN Hst.
  - simpl in Hst. by injection Hst as <-.
  - destruct Hok as (Hn & [Hd Hdesc] & Hhdr).
    apply Forall_cons_1 in Hhdr as [[s Hs] Hhdr].
    pose proof (labelDoAt_Some _ _ _ Hs) as Hbd.
    cbn [RewritePending] in Hst. rewrite Hbd in Hst.
    destruct (GetLabelDoLoopLabel _ =? l)%N; [|by injection Hst as <-].
    rewrite (ConvertToBlockDoConstruct_labelDo _ _ _ s Hs Hd) in Hst.
    rewrite bind_Ok, next_after_conversion in Hst by lia.
    rewrite Nat.eqb_refl in Hst. simpl mbind in Hst.
    set (b' := take d b ++ _) in Hst.
    assert (Hlow : ∀ i, i < d -> b' !! i = b !! i).
    { intros i Hi. unfold b'.
      rewrite lookup_app_l by (rewrite length_take; lia).
      by rewrite lookup_take_lt. }
    apply (IH b' (S d) st'); [| | |done].
    + split_and!.
      * unfold b'. rewrite length_app, length_take. simpl. lia.
      * eapply descending_weaken; [|done]. lia.
      * apply Forall_forall. intros i Hi.
        rewrite (labelDoAt_eq b); [eapply Forall_forall in Hhdr; eauto|].
        apply Hlow. by eapply descending_lt.
    + intros i x Hi Hx. simpl in *.
      destruct (decide (i = d)) as [->|Hne].
      * left. unfold b' in Hx.
        rewrite lookup_app_r in Hx by (rewrite length_take; lia).
        rewrite length_take, Nat.min_l, Nat.sub_diag in Hx by lia.
        by injection Hx as <-.
      * rewrite Hlow in Hx by lia.
        destruct (Hv i x ltac:(simpl; lia) Hx) as [?|Hin]; [by left|].
        apply elem_of_cons in Hin as [?|?]; [done|by right].
    + unfold b'. apply Forall_app. split; [by apply Forall_take|].
      apply List.Forall_cons; [|by apply Forall_drop].
      apply N_blockDo, Forall_lookup. intros k x Hx.
      apply lookup_take_Some in Hx as [Hx Hk]. rewrite lookup_drop in Hx.
      split; [|by eapply Forall_lookup in HN; eauto].
      destruct (Hv (S d + k) x ltac:(simpl; lia) Hx) as [?|Hin]; [done|].
      simpl in Hin. apply elem_of_cons in Hin as [?|Hin]; [lia|].
      apply (descending_lt _ _ _ Hdesc) in Hin. lia.
Qed.

Lemma PostBody_visitedOk st st' :
  WF st -> next st < length (block st) ->
  visitedOk st -> Forall N (block st) ->
  PostBody st = Ok st' -> visitedOk st' ∧ Forall N (block st').
Proof using N_blockDo N_replaced.
  intros Hwf Hlt Hv HN Hst.
  destruct (lookup_lt_is_Some_2 _ _ Hlt) as [x Hx].
  destruct (PostBody_cases _ _ _ Hst Hx)
    as [[Hl ->]|[[[text ->] ->]|(c & c' & -> & Hl & Hr & Hc)]].
  - split; [|done]. intros i y Hi Hy. simpl in *.
    destruct (decide (i = next st)) as [->|Hne]; [right; by left|].
    destruct (Hv i y ltac:(lia) Hy); [by left|right; by right].
  - split; [|done]. intros i y Hi Hy. simpl in *.
    destruct (decide (i = next st)) as [->|Hne].
    + left. rewrite Hx in Hy. by injection Hy as <-.
    + apply Hv; [lia|done].
  - assert (Hv1 : visitedOk (mkPostState
        (<[next st := Executable c']> (block st)) (S (next st))
        (pendingDoLoopStack st))).
    { intros i y Hi Hy. simpl in *.
      destruct (decide (i = next st)) as [->|Hne].
      - left. rewrite list_lookup_insert_eq in Hy by done.
        injection Hy as <-. by eapply replaced_inert.
      - rewrite list_lookup_insert_ne in Hy by done.
        apply Hv; [lia|done]. }
    assert (HN1 : Forall N (<[next st := Executable c']> (block st))).
    { apply Forall_insert; [done|]. apply (N_replaced c c' Hr).
      by eapply Forall_lookup in HN; eauto. }
    simpl in Hc. destruct (_ =? 0)%N; [by subst st'|].
    eapply RewritePending_visitedOk; [|exact Hv1|exact HN1|exact Hc].
    by apply pendingOk_insert.
Qed.

Lemma PostLoop_visitedOk : ∀ turns st st',
  WF st -> next st + turns = length (block st) ->
  visitedOk st -> Forall N (block st) ->
  PostLoop turns st = Ok st' -> visitedOk st' ∧ Forall N (block st').
Proof using N_blockDo N_replaced.
  induction turns as [|turns IH]; intros st st' Hwf Hn Hv HN Hst.
  - simpl in Hst. by injection Hst as <-.
  - simpl in Hst. destruct (PostBody st) as [st1| | |] eqn:H1; try done.
    simpl in Hst.
    destruct (PostBody_keeps (fun _ => True) st st1 ltac:(done) ltac:(done)
                Hwf ltac:(lia) I H1) as (Hwf1 & _ & Hdrop).
    destruct (PostBody_visitedOk st st1) as [Hv1 HN1]; [done|lia|done..|].
    apply (IH st1 st' Hwf1); [|done..].
    apply (f_equal length) in Hdrop. rewrite !length_drop in Hdrop.
    destruct Hwf1 as (Hle & _). unfold pendingOk in Hle. lia.
Qed.

(** When [Post] returns, no node of the block is left for it to convert,
    and what held of every node, was kept by [ReplaceEndDoStmt] and holds of
    a DO construct made from such nodes, holds of every node. *)
Lemma Post_visited b b' :
  Forall N b -> Post b = Ok b' ->
  Forall (fun x => inert x = true ∧ N x) b'.
Proof using N_blockDo N_replaced.
  intros HN (st & Hloop & Hstack & <-)%Post_Ok_inv.
  destruct (PostLoop_end _ _ Hloop) as (_ & Hend).
  destruct (PostLoop_visitedOk (length b) (mkPostState b 0 []) st)
    as [Hv HN']; [apply WF_init|done| |done|done|].
  { intros i x Hi. simpl in Hi. lia. }
  apply Forall_lookup. intros i x Hx.
  split; [|by eapply Forall_lookup in HN'; eauto].
  destruct (Hv i x) as [?|Hin]; [|done|done|].
  - rewrite Hend. by eapply lookup_lt_Some.
  - rewrite Hstack in Hin. by apply elem_of_nil in Hin.
Qed.

End Visited.

Lemma PostBody_inert_node (b : Block) i x :
  b !! i = Some x -> inert x = true ->
  PostBody (mkPostState b i []) = Ok (mkPostState b (S i) []).
Proof.
  intros Hx [Hl He]%andb_true_iff.
  apply negb_true_iff, N.ltb_ge in Hl.
  destruct x as [c|text].
  - rewrite (PostBody_plain (mkPostState b i []) c Hx);
      [|lia|by destruct c].
    simpl. by destruct (_ =? 0)%N.
  - by rewrite (PostBody_other_part (mkPostState b i []) text Hx).
Qed.

Lemma PostLoop_inert (b : Block) : ∀ turns i,
  Forall (fun x => inert x = true) b ->
  i + turns ≤ length b ->
  PostLoop turns (mkPostState b i []) = Ok (mkPostState b (i + turns) []).
Proof.
  induction turns as [|turns IH]; intros i Hb Hi; simpl.
  - by rewrite Nat.add_0_r.
  - destruct (lookup_lt_is_Some_2 b i ltac:(lia)) as [x Hx].
    rewrite (PostBody_inert_node b i x Hx).
    + simpl. rewrite IH by (done || lia). do 2 f_equal. lia.
    + eapply Forall_lookup in Hb; eauto.
Qed.

Lemma Post_inert b : Forall (fun x => inert x = true) b -> Post b = Ok b.
Proof.
  intros Hb. unfold Post.
  by rewrite (PostLoop_inert b (length b) 0 Hb).
Qed.

(** X6.  [Post] is idempotent on every block: in a block that [Post]
    returns no node is a label DO statement with a label above zero or a
    bare END DO statement, and [Post] returns such a block as it is. *)
Theorem post_is_idempotent b b' :
  Post b = Ok b' ->
  Forall (fun x => inert x = true) b' ∧ Post b' = Ok b'.
Proof.
  intros Hb.
  assert (Hinert : Forall (fun x => inert x = true) b').
  { eapply Forall_impl;
      [apply (Post_visited (fun _ => True) ltac:(done) ltac:(done) b b');
       [by apply Forall_true|done]|].
    by intros x [? _]. }
  split; [done|]. by apply Post_inert.
Qed.

Lemma post_is_idempotent_witness :
  (b' ← Post ownEndDo; Post b') = Post ownEndDo.
Proof.
  destruct (post_is_idempotent ownEndDo _ eq_refl) as [_ H].
  exact H.
Defined.

(** X7.  The blocks that [Post] returns as they are, are the blocks without
    a label DO statement with a label above zero and without a bare END DO
    statement: on any other block [Post] changes a node or does not
    return. *)
Theorem post_fixed_points b :
  Post b = Ok b ↔ Forall (fun x => inert x = true) b.
Proof.
  split; [|apply Post_inert].
  intros Hb. eapply Forall_impl;
    [apply (Post_visited (fun _ => True) ltac:(done) ltac:(done) b b);
     [by apply Forall_true|done]|].
  by intros x [? _].
Qed.

Lemma settled_eq x : settled x = inert x && nestedSettled x.
Proof. by destruct x as [[| | |[]|]|]. Qed.

Lemma forallb_intro {A : Type} (f : A -> bool) l :
  Forall (fun x => f x = true) l -> forallb f l = true.
Proof. induction 1 as [|x l Hx _ IH]; simpl; [done|]. by rewrite Hx, IH. Qed.

(** X8.  [Post] does what its comment says under what that comment takes
    for granted: on a block in whose nodes all nested blocks are already
    converted at every depth, the block [Post] returns has nothing left to
    convert at any depth; the body of each DO construct it makes holds
    neither a label DO statement with a label above zero nor a bare END DO
    statement. *)
Theorem post_settles_the_block b b' :
  Forall (fun x => nestedSettled x = true) b ->
  Post b = Ok b' ->
  Forall (fun x => settled x = true) b'.
Proof.
  intros Hb Hpost.
  eapply Forall_impl;
    [apply (Post_visited (fun x => nestedSettled x = true)) with (b := b);
     [| |done|done]|].
  - intros s body Hbody. simpl. apply forallb_intro.
    eapply Forall_impl; [exact Hbody|].
    intros x [Hi Hn]. by rewrite settled_eq, Hi, Hn.
  - intros c c' [[_ ->]|(e & lab & -> & _ & _ & -> & _)]; done.
  - intros x [Hi Hn]. by rewrite settled_eq, Hi, Hn.
Qed.

Lemma post_settles_the_block_witness :
  ∃ b', Post ownEndDo = Ok b' ∧ Forall (fun x => settled x = true) b'.
Proof.
  eexists. split; [reflexivity|].
  refine (post_settles_the_block ownEndDo _ _ eq_refl).
  repeat apply List.Forall_cons; try apply List.Forall_nil; reflexivity.
Defined.

End CanonicalizeDoFacts.

Module CheckIfStmtFacts.
Import ParseTree CheckIfStmt.

(** C8, as amended.  [Leave] on a one-line IF statement whose action
    statement is a one-line IF statement says exactly one message, attached
    to the source range of that action statement, which is the inner IF
    statement; on any other action statement it says nothing. *)
Theorem nested_if_one_message cond body context_ :
  (∀ inner, statement body = ActionIfStmt inner ->
     Leave (mkIfStmt cond body) context_ =
       context_ ++
       [mkMessage (source body) "IF statement is not allowed in IF statement"]) ∧
  ((∀ inner, statement body ≠ ActionIfStmt inner) ->
     Leave (mkIfStmt cond body) context_ = context_).
Proof.
  split.
  - intros inner Hb. simpl. by rewrite Hb.
  - intros Hb. simpl. destruct (statement body) as [| | |inner|] eqn:E; try done.
    by destruct (Hb inner).
Qed.

Lemma nested_if_one_message_witness :
  Leave (mkIfStmt "A > 0.0" innerIf) [] =
    [mkMessage (mkCharBlock 20 24) "IF statement is not allowed in IF statement"]
  ∧
  Leave (mkIfStmt "B < 0.0"
           (mkUnlabeled (mkCharBlock 33 11) (OtherActionStmt "A = LOG (A)"))) []
  = [].
Proof.
  split.
  - exact (proj1 (nested_if_one_message "A > 0.0" innerIf []) _ eq_refl).
  - refine (proj2 (nested_if_one_message "B < 0.0"
      (mkUnlabeled (mkCharBlock 33 11) (OtherActionStmt "A = LOG (A)")) []) _).
    intros inner. discriminate.
Defined.

(** C8 as stated fails in where the message is: it is attached to the
    inner IF statement (columns 20 and on), not to the outer one. *)
Lemma message_is_at_inner_if :
  at_ <$> visit outerIf = [source innerIf] ∧
  at_ <$> visit outerIf ≠ [source outerIf].
Proof. split; [reflexivity|discriminate]. Qed.

End CheckIfStmtFacts.

Module DoConcurrentFacts.
Import ParseTree DoConcurrent.

(** The modelled checker gives what the test file expects. *)
Lemma model_passes_tests :
  checkNode [] do_concurrent_test1 = expected1 ∧
  checkNode [] do_concurrent_test2 = expected2 ∧
  checkNode [] do_concurrent_test3 = expected3 ∧
  checkNode [] do_concurrent_test4 = expected4.
Proof. by split_and!. Qed.

Lemma leaveFrames_resolve target stack :
  leaveFrames target stack =
    (fun i => replicate (concurrentLoops (take (S i) stack)) IllegalEscape)
      <$> resolve target stack.
Proof.
  induction stack as [|f outer IH]; [done|]. cbn [leaveFrames resolve].
  destruct (isTarget target f).
  - simpl. f_equal. unfold concurrentLoops. rewrite filter_cons.
    destruct (escapeRestricted f); by case_decide.
  - rewrite IH. destruct (resolve target outer) as [i|]; [|done]. simpl.
    f_equal. unfold concurrentLoops.
    change (take (S (S i)) (f :: outer)) with (f :: take (S i) outer).
    rewrite filter_cons. destruct (escapeRestricted f); by case_decide.
Qed.

(** C6.  An EXIT statement without a name whose nearest enclosing loop (the
    frame [resolve] finds at depth [i]) is a concurrent loop gets the
    illegal escape diagnostic, exactly once, whatever the frames around
    are. *)
Theorem unnamed_exit_in_concurrent_loop stack i f :
  resolve None stack = Some i ->
  stack !! i = Some f ->
  kind f = ConcurrentLoop ->
  CheckExit None stack = [IllegalEscape].
Proof.
  intros Hres Hf Hk. unfold CheckExit.
  rewrite leaveFrames_resolve, Hres. simpl.
  replace (concurrentLoops _) with 1; [done|].
  revert i Hres Hf. induction stack as [|g outer IH]; intros i Hres Hf; [done|].
  cbn [resolve] in Hres. unfold concurrentLoops in *.
  destruct (isTarget None g) eqn:Hg.
  - injection Hres as <-. injection Hf as ->.
    change (take 1 (f :: outer)) with [f].
    rewrite filter_cons. unfold escapeRestricted. rewrite Hk.
    by case_decide.
  - destruct (resolve None outer) as [j|] eqn:Hj; [|done].
    injection Hres as <-. simpl in Hf.
    change (take (S (S j)) (g :: outer)) with (g :: take (S j) outer).
    rewrite filter_cons.
    assert (escapeRestricted g = false) as ->.
    { unfold isTarget, isLoop in Hg. unfold escapeRestricted.
      by destruct (kind g). }
    case_decide; [done|]. by apply (IH j).
Qed.

(** The unnamed EXIT of do_concurrent_test2, inside a conditional
    construct and an ordinary loop in addition. *)
Lemma unnamed_exit_in_concurrent_loop_witness :
  CheckExit None
    [ mkFrame Conditional None; mkFrame ConcurrentLoop (Some "mydoc");
      mkFrame OrdinaryLoop (Some "outer") ]
  = [IllegalEscape].
Proof.
  exact (unnamed_exit_in_concurrent_loop
           [ mkFrame Conditional None; mkFrame ConcurrentLoop (Some "mydoc");
             mkFrame OrdinaryLoop (Some "outer") ] 1
           (mkFrame ConcurrentLoop (Some "mydoc")) eq_refl eq_refl eq_refl).
Defined.

(** C7, as amended.  An EXIT statement whose target is found at depth [i]
    gets one illegal escape diagnostic for each concurrent loop among the
    frames it leaves, the target included, and no other diagnostic. *)
Theorem one_diagnostic_per_concurrent_loop_left target stack i :
  resolve target stack = Some i ->
  CheckExit target stack =
    replicate (concurrentLoops (take (S i) stack)) IllegalEscape.
Proof.
  intros Hres. unfold CheckExit. by rewrite leaveFrames_resolve, Hres.
Qed.

Lemma one_diagnostic_per_concurrent_loop_left_witness :
  CheckExit (Some "mytest4")
    [ mkFrame ConcurrentLoop None; mkFrame ConcurrentLoop (Some "mydoc");
      mkFrame Conditional (Some "mytest4") ]
  = [IllegalEscape; IllegalEscape].
Proof.
  exact (one_diagnostic_per_concurrent_loop_left (Some "mytest4")
           [ mkFrame ConcurrentLoop None; mkFrame ConcurrentLoop (Some "mydoc");
             mkFrame Conditional (Some "mytest4") ] 2 eq_refl).
Defined.

(** C7 as stated fails on do_concurrent_test4: [EXIT mytest4] at line 63
    leaves two concurrent loops and the test file expects two diagnostics
    for it, which is what the checker gives. *)
Lemma exit_across_two_concurrent_loops :
  filter (fun e => e.1 = 63) expected4 =
    [ (63, IllegalEscape); (63, IllegalEscape) ] ∧
  filter (fun e => e.1 = 63) (checkNode [] do_concurrent_test4) =
    [ (63, IllegalEscape); (63, IllegalEscape) ] ∧
  length (CheckExit (Some "mytest4")
            [ mkFrame ConcurrentLoop None; mkFrame ConcurrentLoop (Some "mydoc");
              mkFrame Conditional (Some "mytest4") ]) ≠ 1.
Proof. split_and!; [reflexivity|reflexivity|discriminate]. Qed.

End DoConcurrentFacts.

Module TokensFacts.
Import Tokens.

(** C10, as amended.  Of the nine members [empty], [SizeInTokens],
    [SizeInChars], [TokenAt], [CharAt], [CurrentOpenToken],
    [PutNextTokenChar], [CloseToken] and [ReopenLastToken] ([Member]): no
    call removes a character; [PutNextTokenChar] and [CloseToken] only
    append, to the characters and to the token starts; the six lookups
    leave the buffer as it is; [ReopenLastToken] removes the last token
    start and makes it the start of the open token. *)
Theorem inline_members_keep_characters m ts ts' :
  after m ts = Some ts' ->
  char_ ts `prefix_of` char_ ts' ∧
  (m ≠ call_ReopenLastToken -> start_ ts `prefix_of` start_ ts') ∧
  (isLookup m = true -> ts' = ts) ∧
  (m = call_ReopenLastToken ->
     start_ ts = start_ ts' ++ [nextStart_ ts'] ∧ char_ ts' = char_ ts).
Proof.
  intros H.
  destruct m as [| | |token|j| |ch provenance| |]; simpl in H;
    try (injection H as <-; by split_and!).
  - destruct (TokenAt ts token); simpl in H; [|done].
    injection H as <-. by split_and!.
  - destruct (CharAt ts j); simpl in H; [|done].
    injection H as <-. by split_and!.
  - injection H as <-. simpl.
    split_and!; [by apply prefix_app_r|done|done|done].
  - injection H as <-. simpl.
    split_and!; [done|intros _; by apply prefix_app_r|done|done].
  - unfold ReopenLastToken in H.
    destruct (last (start_ ts)) as [back|] eqn:Hlast; simpl in H; [|done].
    injection H as <-. simpl. split_and!; try done.
    intros _. split; [|done].
    destruct (start_ ts) as [|x l] using rev_ind; [done|].
    rewrite last_snoc in Hlast. injection Hlast as ->.
    by rewrite removelast_last.
Qed.

Lemma inline_members_keep_characters_witness :
  char_ oneToken `prefix_of`
    char_ (PutNextTokenChar "b"%char 1 oneToken) ∧
  start_ oneToken `prefix_of`
    start_ (PutNextTokenChar "b"%char 1 oneToken).
Proof.
  destruct (inline_members_keep_characters (call_PutNextTokenChar "b"%char 1)
              oneToken _ eq_refl) as (Hc & Hs & _).
  split; [exact Hc|]. apply Hs. discriminate.
Defined.

(** C10 as stated fails: [ReopenLastToken] removes a stored token. *)
Lemma reopening_removes_a_token :
  ∃ ts', after call_ReopenLastToken oneToken = Some ts' ∧
         SizeInTokens oneToken = 1 ∧ SizeInTokens ts' = 0 ∧
         ¬ onlyGrows oneToken ts'.
Proof.
  eexists. split_and!; [reflexivity..|].
  intros [_ [k Hk]]. discriminate.
Qed.

(** *** The partition into tokens *)

Lemma last_cons_default (a x : nat) l :
  default a (last (x :: l)) = default x (last l).
Proof. rewrite last_cons. by destruct (last l). Qed.

Lemma ascending_app : ∀ l a k,
  ascending a (l ++ k) ↔ ascending a l ∧ ascending (default a (last l)) k.
Proof.
  induction l as [|x l IH]; intros a k.
  - simpl. tauto.
  - rewrite last_cons_default. simpl. rewrite IH. tauto.
Qed.

Lemma ascending_snoc a l n :
  ascending a (l ++ [n]) ↔ ascending a l ∧ default a (last l) ≤ n.
Proof. rewrite ascending_app. simpl. tauto. Qed.

Lemma ascending_lookup : ∀ l a i j x y,
  ascending a l -> l !! i = Some x -> l !! j = Some y -> i ≤ j ->
  a ≤ x ∧ x ≤ y.
Proof.
  induction l as [|s l IH]; intros a i j x y Hasc Hi Hj Hij; [done|].
  destruct Hasc as [Ha Hl].
  destruct i as [|i], j as [|j]; simpl in *; try lia.
  - injection Hi as <-. injection Hj as <-. lia.
  - injection Hi as <-. destruct (IH _ j j y y Hl Hj Hj); lia.
  - destruct (IH _ i j x y Hl Hi Hj); lia.
Qed.

Lemma head_snoc_snoc (l : list nat) a b :
  head ((l ++ [a]) ++ [b]) = head (l ++ [a]).
Proof. by destruct l. Qed.

Lemma pieces_length cs e offsets :
  length (pieces cs offsets e) = length offsets.
Proof. induction offsets; simpl; congruence. Qed.

Lemma pieces_lookup cs e : ∀ offsets i,
  pieces cs offsets e !! i =
  (s ← offsets !! i;
   Some (take (default e (offsets !! S i) - s) (drop s cs))).
Proof.
  induction offsets as [|s rest IH]; intros [|i]; simpl; try done.
  by rewrite head_lookup.
Qed.

Lemma pieces_concat cs e : ∀ offsets s,
  ascending s (offsets ++ [e]) ->
  concat (pieces cs (s :: offsets) e) = take (e - s) (drop s cs).
Proof.
  induction offsets as [|n rest IH]; intros s H.
  - simpl. by rewrite app_nil_r.
  - destruct H as [Hn H].
    assert (n ≤ e).
    { destruct (ascending_lookup (rest ++ [e]) n (length rest) (length rest)
                  e e H) as [? _]; try done;
        by rewrite list_lookup_middle. }
    change (concat (pieces cs (s :: n :: rest) e))
      with (take (n - s) (drop s cs) ++ concat (pieces cs (n :: rest) e)).
    rewrite (IH n H).
    replace (drop n cs) with (drop (n - s) (drop s cs))
      by (rewrite drop_drop; f_equal; lia).
    rewrite take_take_drop. f_equal. lia.
Qed.

Lemma TokenAt_pieces ts i :
  TokenAt ts i = pieces (char_ ts) (start_ ts) (length (char_ ts)) !! i.
Proof.
  rewrite pieces_lookup. unfold TokenAt, TokenBytes.
  destruct (start_ ts !! i) as [s|] eqn:Hs; simpl; [|done].
  rewrite Nat.add_1_r. do 3 f_equal. case_decide as Hlen.
  - by rewrite (lookup_ge_None_2 _ _ Hlen).
  - destruct (lookup_lt_is_Some_2 (start_ ts) (S i)) as [x ->]; [lia|done].
Qed.

Lemma consistent_lookup ts i j x y :
  consistent ts -> start_ ts !! i = Some x -> start_ ts !! j = Some y ->
  i ≤ j -> x ≤ y ∧ y ≤ nextStart_ ts.
Proof.
  intros (_ & Hasc & _) Hi Hj Hij.
  pose proof (lookup_lt_Some _ _ _ Hj) as Hlt.
  pose proof (lookup_lt_Some _ _ _ Hi) as Hlti.
  assert (Hi' : (start_ ts ++ [nextStart_ ts]) !! i = Some x)
    by (by rewrite lookup_app_l).
  assert (Hj' : (start_ ts ++ [nextStart_ ts]) !! j = Some y)
    by (by rewrite lookup_app_l).
  assert (Hn : (start_ ts ++ [nextStart_ ts]) !! length (start_ ts)
               = Some (nextStart_ ts))
    by (by rewrite list_lookup_middle).
  destruct (ascending_lookup _ _ _ _ _ _ Hasc Hi' Hj' Hij) as [_ ?].
  destruct (ascending_lookup _ _ _ _ _ _ Hasc Hj' Hn ltac:(lia)) as [_ ?].
  done.
Qed.

Lemma after_consistent m ts ts' :
  consistent ts -> after m ts = Some ts' -> consistent ts'.
Proof.
  intros (Hhd & Hasc & Hle) H.
  destruct m as [| | |token|j| |ch provenance| |]; simpl in H;
    try (injection H as <-; by split_and!).
  - destruct (TokenAt ts token); simpl in H; [|done].
    injection H as <-. by split_and!.
  - destruct (CharAt ts j); simpl in H; [|done].
    injection H as <-. by split_and!.
  - injection H as <-. unfold consistent. simpl.
    rewrite length_app. simpl. split_and!; [done|done|lia].
  - injection H as <-. unfold consistent. simpl.
    rewrite head_snoc_snoc. split_and!; [done| |done].
    apply ascending_snoc. split; [done|]. by rewrite last_snoc.
  - unfold ReopenLastToken in H.
    destruct (last (start_ ts)) as [back|] eqn:Hlast; simpl in H; [|done].
    injection H as <-. unfold consistent. simpl.
    destruct (start_ ts) as [|x l] using rev_ind; [done|].
    rewrite last_snoc in Hlast. injection Hlast as ->.
    rewrite removelast_last. rewrite head_snoc_snoc in Hhd.
    apply ascending_snoc in Hasc as [Hasc Hback].
    rewrite last_snoc in Hback. simpl in Hback.
    split_and!; [done|done|lia].
Qed.

(** X9.  Whatever calls of the nine members of [Member] are made on a
    buffer, each on what the one before left, if they all return, then
    the data members stay consistent: the token starts followed by
    [nextStart_] begin at offset 0, do not go down, and [nextStart_] is not
    beyond the characters.  The buffer of the default constructor is
    consistent. *)
Theorem calls_keep_the_buffer_consistent ms : ∀ ts ts',
  consistent ts -> calls ms ts = Some ts' ->
  consistent ts' ∧ consistent emptySequence.
Proof.
  induction ms as [|m ms IH]; intros ts ts' Hts H; simpl in H.
  - injection H as <-. split; [done|]. unfold consistent. simpl. by split_and!.
  - destruct (after m ts) as [ts1|] eqn:H1; simpl in H; [|done].
    apply (IH ts1); [|done]. by eapply after_consistent.
Qed.

Lemma calls_keep_the_buffer_consistent_witness : consistent openToken.
Proof.
  refine (proj1 (calls_keep_the_buffer_consistent
    [call_PutNextTokenChar "a"%char 0; call_CloseToken; call_TokenAt 0;
     call_PutNextTokenChar "b"%char 1]
    emptySequence openToken _ eq_refl)).
  unfold consistent. simpl. by split_and!.
Defined.

(** X10.  In a consistent buffer with at least one token, the texts that
    [TokenAt] returns for the tokens 0, 1, ..., in this order, make up all
    the characters of the buffer with nothing left out and nothing twice;
    beyond the last token [TokenAt] throws. *)
Theorem tokens_partition_the_characters ts :
  consistent ts -> start_ ts ≠ [] ->
  ∃ texts, length texts = SizeInTokens ts ∧
           (∀ i, TokenAt ts i = texts !! i) ∧
           concat texts = char_ ts.
Proof.
  intros (Hhd & Hasc & Hle) Hne.
  exists (pieces (char_ ts) (start_ ts) (length (char_ ts))).
  split_and!; [apply pieces_length|apply TokenAt_pieces|].
  destruct (start_ ts) as [|s0 rest]; [done|].
  simpl in Hhd. injection Hhd as ->. destruct Hasc as [_ Hasc].
  rewrite pieces_concat.
  - rewrite Nat.sub_0_r. simpl. by rewrite take_ge.
  - apply ascending_snoc in Hasc as [? ?]. apply ascending_snoc.
    split; [done|lia].
Qed.

Lemma tokens_partition_the_characters_witness :
  ∃ texts, length texts = 1 ∧
           (∀ i, TokenAt openToken i = texts !! i) ∧
           concat texts = ["a"%char; "b"%char].
Proof.
  refine (tokens_partition_the_characters openToken _ _).
  - unfold consistent. simpl. split_and!; (done || lia).
  - discriminate.
Defined.

(** X11.  [CloseToken] on a consistent buffer makes the open token the last
    token: [TokenAt] at the new last index returns the characters that
    [CurrentOpenToken] returned, the open token is then empty, and
    [ReopenLastToken] right after gives the buffer as it was. *)
Theorem closing_turns_the_open_token_into_the_last_token ts :
  consistent ts ->
  TokenAt (CloseToken ts) (SizeInTokens ts) = Some (CurrentOpenToken ts) ∧
  SizeInTokens (CloseToken ts) = S (SizeInTokens ts) ∧
  CurrentOpenToken (CloseToken ts) = [] ∧
  ReopenLastToken (CloseToken ts) = Some ts.
Proof.
  intros (_ & _ & Hle). split_and!.
  - unfold TokenAt, TokenBytes, CloseToken, SizeInTokens, CurrentOpenToken.
    cbn [start_ nextStart_ char_].
    rewrite (list_lookup_middle (start_ ts) [] (nextStart_ ts) _ eq_refl).
    simpl.
    rewrite decide_True by (rewrite length_app; simpl; lia).
    f_equal. apply take_ge. by rewrite length_drop.
  - unfold SizeInTokens, CloseToken. simpl. rewrite length_app. simpl. lia.
  - unfold CurrentOpenToken, CloseToken. simpl. apply drop_all.
  - unfold ReopenLastToken, CloseToken. simpl.
    rewrite last_snoc, removelast_last. simpl. by destruct ts.
Qed.

Lemma closing_turns_the_open_token_into_the_last_token_witness :
  TokenAt (CloseToken openToken) 1 = Some ["b"%char] ∧
  ReopenLastToken (CloseToken openToken) = Some openToken.
Proof.
  assert (H : consistent openToken).
  { unfold consistent. simpl. split_and!; (done || lia). }
  destruct (closing_turns_the_open_token_into_the_last_token openToken H)
    as (H1 & _ & _ & H2).
  split; [exact H1|exact H2].
Defined.

(** X12.  [PutNextTokenChar] on a consistent buffer appends the character
    to the open token and, since the last token reaches to the end of the
    characters ([TokenBytes]), also to the text that [TokenAt] returns for
    the last closed token; the text of every other token stays as it was. *)
Theorem next_character_extends_the_last_token ch provenance ts i :
  consistent ts ->
  CurrentOpenToken (PutNextTokenChar ch provenance ts) =
    CurrentOpenToken ts ++ [ch] ∧
  TokenAt (PutNextTokenChar ch provenance ts) i =
    (if decide (S i = SizeInTokens ts)
     then (fun text => text ++ [ch]) <$> TokenAt ts i
     else TokenAt ts i).
Proof.
  intros Hts. pose proof Hts as (_ & _ & Hle). split.
  - unfold CurrentOpenToken, PutNextTokenChar. simpl.
    by rewrite drop_app_le.
  - unfold TokenAt, TokenBytes, SizeInTokens, PutNextTokenChar.
    cbn [start_ nextStart_ char_].
    destruct (start_ ts !! i) as [s|] eqn:Hs; simpl; [|by case_decide].
    pose proof (lookup_lt_Some _ _ _ Hs) as Hi.
    destruct (consistent_lookup ts i i s s Hts Hs Hs) as [_ Hsn]; [done|].
    rewrite Nat.add_1_r, length_app. simpl.
    rewrite drop_app_le by lia.
    destruct (decide (S i = length (start_ ts))) as [Heq|Hne].
    + rewrite !decide_True by lia. simpl. f_equal.
      rewrite !take_ge; [done|rewrite length_drop; lia|].
      rewrite length_app, length_drop. simpl. lia.
    + rewrite !decide_False by lia.
      destruct (lookup_lt_is_Some_2 (start_ ts) (S i)) as [e He]; [lia|].
      rewrite He. simpl. f_equal.
      destruct (consistent_lookup ts i (S i) s e Hts Hs He) as [? ?]; [lia|].
      apply take_app_le. rewrite length_drop. lia.
Qed.

Lemma next_character_extends_the_last_token_witness :
  TokenAt oneToken 0 = Some ["a"%char] ∧
  TokenAt openToken 0 = Some ["a"%char; "b"%char].
Proof.
  split; [reflexivity|].
  refine (proj2 (next_character_extends_the_last_token "b"%char 1 oneToken 0 _)).
  unfold consistent. simpl. split_and!; (done || lia).
Defined.

(** X13.  [ReopenLastToken] on a consistent buffer with a last token takes
    that token away and makes its text, with what was in the open token,
    the open token; when the open token was empty, [CloseToken] gives the
    buffer back.  Without a token there is no [start_.back()]. *)
Theorem reopening_merges_the_last_token ts :
  consistent ts ->
  match ReopenLastToken ts with
  | Some ts' =>
      SizeInTokens ts = S (SizeInTokens ts') ∧
      TokenAt ts (SizeInTokens ts') = Some (CurrentOpenToken ts') ∧
      CurrentOpenToken ts' =
        take (nextStart_ ts - nextStart_ ts') (CurrentOpenToken ts') ++
        CurrentOpenToken ts ∧
      (nextStart_ ts = SizeInChars ts -> CloseToken ts' = ts)
  | None => empty ts = true
  end.
Proof.
  intros Hts. pose proof Hts as (_ & Hasc & Hle).
  unfold ReopenLastToken, empty.
  destruct (start_ ts) as [|back l] eqn:Hstart using rev_ind; [done|].
  rewrite last_snoc. simpl. rewrite removelast_last.
  apply ascending_snoc in Hasc as [_ Hback]. rewrite last_snoc in Hback.
  simpl in Hback.
  unfold SizeInTokens, TokenAt, TokenBytes, CurrentOpenToken, SizeInChars,
    CloseToken. cbn [start_ nextStart_ char_ provenances_]. rewrite Hstart.
  rewrite (list_lookup_middle l [] back _ eq_refl). simpl.
  rewrite decide_True by (rewrite length_app; simpl; lia).
  split_and!.
  - rewrite length_app. simpl. lia.
  - f_equal. apply take_ge. by rewrite length_drop.
  - replace (drop (nextStart_ ts) (char_ ts))
      with (drop (nextStart_ ts - back) (drop back (char_ ts)))
      by (rewrite drop_drop; f_equal; lia).
    by rewrite take_drop.
  - intros Hn. destruct ts; simpl in *. by subst.
Qed.

Lemma reopening_merges_the_last_token_witness :
  ∃ ts', ReopenLastToken openToken = Some ts' ∧
         CurrentOpenToken ts' = ["a"%char; "b"%char].
Proof.
  assert (H : consistent openToken).
  { unfold consistent. simpl. split_and!; (done || lia). }
  pose proof (reopening_merges_the_last_token openToken H) as H'.
  destruct (ReopenLastToken openToken) as [ts'|] eqn:Hre; [|discriminate].
  exists ts'. split; [done|].
  destruct H' as (_ & Hat & _). injection Hre as <-. reflexivity.
Defined.

End TokensFacts.
